(** * Stack shuffling ([libyul/backends/evm/StackHelpers.h])

    A shallow embedding of [Shuffler::shuffle], [Shuffler::shuffleStep],
    the [ShuffleOperations] adapter local to [createStackLayout], and
    [createStackLayout] itself, together with the properties of the
    stack-layout transformer that are established for them.

    Conventions.
    - [size_t] values are [N]; the only arithmetic the code performs on
      them that can wrap is subtraction, written out in [usub].  The depth
      handed to the swap hook is converted to [unsigned], written out in
      [to_unsigned].
    - The entries of the multiplicity table are C++ [int]s, here [Z]: they
      are bounded by the sizes of the two stacks, and signed overflow has
      no defined behaviour to model.  The counters of
      [ranges::views::iota(0u, n)] are [unsigned]; the ranges are the
      plain ones [0, ..., n - 1].
    - [std::vector::at] and [std::map::at] throw [std::out_of_range];
      [yulAssert] throws an assertion error.  Both are results [Err _], and
      the machine they come with is the one at the time of the throw.
    - The three caller hooks only observe their arguments; a call of a hook
      is recorded, in order, in the [emitted] trace of the machine. *)

From Stdlib Require Import NArith ZArith Lia.
From stdpp Require Import gmap list strings.
From Equations Require Import Equations.

#[local] Set Warnings "-clear-no-such-hyp".

Local Open Scope N_scope.

(** ** Stack slots *)

(** Modelled from the spec: the declaration of the [StackSlot] variant
    (it is in [libyul/backends/evm/ControlFlowGraph.h], included by this
    header).  The six alternatives and their payload fields are the ones
    [stackSlotToString] visits; references to AST nodes ([call],
    [variable]) are compared by identity and are modelled by numeric
    identifiers, a literal by its value.  Equality is structural. *)
Inductive StackSlot : Type :=
| FunctionCallReturnLabelSlot (call : N)
| FunctionReturnLabelSlot
| VariableSlot (variable : N)
| LiteralSlot (value : N)
| TemporarySlot (call : N) (index : N)
| JunkSlot.

#[global] Instance StackSlot_eq_dec : EqDecision StackSlot.
Proof. solve_decision. Defined.

Definition StackSlot_encode (s : StackSlot) : N + (unit + (N + (N + (N * N + unit)))) :=
  match s with
  | FunctionCallReturnLabelSlot c => inl c
  | FunctionReturnLabelSlot => inr (inl tt)
  | VariableSlot v => inr (inr (inl v))
  | LiteralSlot v => inr (inr (inr (inl v)))
  | TemporarySlot c i => inr (inr (inr (inr (inl (c, i)))))
  | JunkSlot => inr (inr (inr (inr (inr tt))))
  end.

Definition StackSlot_decode (x : N + (unit + (N + (N + (N * N + unit))))) : StackSlot :=
  match x with
  | inl c => FunctionCallReturnLabelSlot c
  | inr (inl _) => FunctionReturnLabelSlot
  | inr (inr (inl v)) => VariableSlot v
  | inr (inr (inr (inl v))) => LiteralSlot v
  | inr (inr (inr (inr (inl (c, i))))) => TemporarySlot c i
  | inr (inr (inr (inr (inr _)))) => JunkSlot
  end.

#[global] Instance StackSlot_countable : Countable StackSlot.
Proof.
  apply (inj_countable' StackSlot_encode StackSlot_decode).
  intros []; reflexivity.
Defined.

(** [std::holds_alternative<JunkSlot>(slot)] *)
Definition holds_JunkSlot (slot : StackSlot) : bool :=
  match slot with JunkSlot => true | _ => false end.

(** [operator==] on slots. *)
Definition slot_eqb (a b : StackSlot) : bool := bool_decide (a = b).

(** [Stack] is [std::vector<StackSlot>]; index 0 is the bottom. *)
Abbreviation Stack := (list StackSlot).

(** ** Results and exceptions *)

Inductive Error : Type :=
| YulAssertion (msg : string)
| StdOutOfRange.

Inductive Res (A : Type) : Type :=
| Ok (a : A)
| Err (e : Error).
Arguments Ok {A} a.
Arguments Err {A} e.

Definition bindR {A B} (r : Res A) (k : A -> Res B) : Res B :=
  match r with
  | Ok a => k a
  | Err e => Err e
  end.

Notation "'let*' x ':=' r 'in' k" := (bindR r (fun x => k))
  (at level 10, x binder, r at level 100, k at level 200).

(** Short-circuit [&&] and [||] over sub-expressions that may throw. *)
Definition andR (a b : Res bool) : Res bool :=
  let* x := a in if x then b else Ok false.
Definition orR (a b : Res bool) : Res bool :=
  let* x := a in if x then Ok true else b.
Definition notR (a : Res bool) : Res bool :=
  let* x := a in Ok (negb x).

Infix "&&&" := andR (at level 40, left associativity).
Infix "|||" := orR (at level 50, left associativity).

(** ** [size_t] and vectors *)

Definition size_t_modulus : N := 2 ^ 64.

(** Subtraction of two [size_t] values: wraps around modulo [2^64]. *)
Definition usub (a b : N) : N := (a + size_t_modulus - b mod size_t_modulus) mod size_t_modulus.

(** [static_cast<unsigned>(_i)] *)
Definition to_unsigned (i : N) : N := i mod 2 ^ 32.

(** [v.size()] *)
Definition vsize {A} (v : list A) : N := N.of_nat (length v).

(** [v.at(i)]: bounds-checked access. *)
Definition at_ {A} (v : list A) (i : N) : Res A :=
  match v !! N.to_nat i with
  | Some x => Ok x
  | None => Err StdOutOfRange
  end.

(** [ranges::views::iota(0u, n)] *)
Definition iota (n : N) : list N := N.of_nat <$> seq 0 (N.to_nat n).

(** [v | ranges::views::enumerate] *)
Definition enumerate {A} (v : list A) : list (N * A) := zip (iota (vsize v)) v.

(** [ranges::all_of(range, pred)] for a predicate that may throw. *)
Fixpoint all_of (l : list N) (pred : N -> Res bool) : Res bool :=
  match l with
  | [] => Ok true
  | i :: l' => let* b := pred i in if b then all_of l' pred else Ok false
  end.

(** A [for] loop over a range whose body is [if (cond) { ...; return; }]:
    the first element for which the condition holds, if any. *)
Fixpoint first_of (l : list N) (cond : N -> Res bool) : Res (option N) :=
  match l with
  | [] => Ok None
  | i :: l' => let* b := cond i in if b then Ok (Some i) else first_of l' cond
  end.

(** A [for] loop over a range whose body is [yulAssert(cond, "")]. *)
Fixpoint assert_each (l : list N) (cond : N -> Res bool) : Res unit :=
  match l with
  | [] => Ok tt
  | i :: l' =>
      let* b := cond i in
      if b then assert_each l' cond else Err (YulAssertion "")
  end.

(** A [for] loop over a range whose body is [if (cond) out.emplace_back(i)]:
    the elements collected, in order. *)
Fixpoint collect (l : list N) (cond : N -> Res bool) : Res (list N) :=
  match l with
  | [] => Ok []
  | i :: l' =>
      let* b := cond i in
      let* rest := collect l' cond in
      Ok (if b then i :: rest else rest)
  end.

(** ** The [ShuffleOperations] adapter of [createStackLayout] *)

(** The adapter refers to the caller's current stack and to the target
    stack, and owns the multiplicity table built by its constructor.  A
    fresh adapter is built at the start of every step, and a step mutates
    the current stack only by the single primitive that ends it; so the
    queries of one step all see the stack the adapter was built over,
    which is the [currentStack] field. *)
Record ShuffleOperations : Type := {
  currentStack : Stack;
  targetStack : Stack;
  multiplicity : gmap StackSlot Z
}.

(** [--multiplicity[slot]] and [++multiplicity[slot]]: [operator[]] inserts
    a value-initialised (zero) entry for a missing key. *)
Definition decrement (m : gmap StackSlot Z) (slot : StackSlot) : gmap StackSlot Z :=
  <[slot := (default 0 (m !! slot) - 1)%Z]> m.
Definition increment (m : gmap StackSlot Z) (slot : StackSlot) : gmap StackSlot Z :=
  <[slot := (default 0 (m !! slot) + 1)%Z]> m.

(** Body of the second constructor loop, lines 270-274. *)
Definition countTarget (current : Stack) (m : gmap StackSlot Z) (entry : N * StackSlot)
  : Res (gmap StackSlot Z) :=
  let '(offset, slot) := entry in
  if holds_JunkSlot slot && (offset <? vsize current)
  then let* absorbed := at_ current offset in Ok (increment m absorbed)
  else Ok (increment m slot).

Fixpoint countTargets (current : Stack) (m : gmap StackSlot Z) (entries : list (N * StackSlot))
  : Res (gmap StackSlot Z) :=
  match entries with
  | [] => Ok m
  | entry :: entries' =>
      let* m' := countTarget current m entry in
      countTargets current m' entries'
  end.

(** The constructor, lines 255-275. *)
Definition mkShuffleOperations (current target : Stack) : Res ShuffleOperations :=
  let m0 := foldl decrement ∅ current in
  let* m := countTargets current m0 (enumerate target) in
  Ok {| currentStack := current; targetStack := target; multiplicity := m |}.

Section Queries.
Context (ops : ShuffleOperations).

Definition sourceSize : N := vsize (currentStack ops).
Definition targetSize : N := vsize (targetStack ops).

Definition isCompatible (_source _target : N) : Res bool :=
  Ok (_source <? sourceSize) &&&
  Ok (_target <? targetSize) &&&
  ((let* t := at_ (targetStack ops) _target in Ok (holds_JunkSlot t)) |||
   (let* s := at_ (currentStack ops) _source in
    let* t := at_ (targetStack ops) _target in
    Ok (slot_eqb s t))).

Definition sourceIsSame (_lhs _rhs : N) : Res bool :=
  let* l := at_ (currentStack ops) _lhs in
  let* r := at_ (currentStack ops) _rhs in
  Ok (slot_eqb l r).

(** [multiplicity.at(key)] *)
Definition multiplicity_at (key : StackSlot) : Res Z :=
  match multiplicity ops !! key with
  | Some n => Ok n
  | None => Err StdOutOfRange
  end.

Definition sourceMultiplicity (_offset : N) : Res Z :=
  let* slot := at_ (currentStack ops) _offset in multiplicity_at slot.

Definition targetMultiplicity (_offset : N) : Res Z :=
  let* slot := at_ (targetStack ops) _offset in multiplicity_at slot.

Definition targetIsArbitrary (offset : N) : Res bool :=
  Ok (offset <? targetSize) &&&
  (let* t := at_ (targetStack ops) offset in Ok (holds_JunkSlot t)).
End Queries.

(** ** The machine: the caller's stack and the hooks called so far *)

Inductive Primitive : Type :=
| SwapCall (depth : N)
| PushOrDupCall (slot : StackSlot)
| PopCall.

Record Machine : Type := {
  current : Stack;
  emitted : list Primitive
}.

Definition M (A : Type) : Type := Machine -> Res A * Machine.

Definition ret {A} (a : A) : M A := fun st => (Ok a, st).
Definition throw {A} (e : Error) : M A := fun st => (Err e, st).
Definition bind {A B} (m : M A) (k : A -> M B) : M B :=
  fun st =>
    match m st with
    | (Ok a, st') => k a st'
    | (Err e, st') => (Err e, st')
    end.
Definition lift {A} (r : Res A) : M A := fun st => (r, st).

Notation "'do' x '<-' m ';' k" := (bind m (fun x => k))
  (at level 10, x binder, m at level 100, k at level 200).

(** [yulAssert(cond, msg)] *)
Definition assertR (cond : bool) (msg : string) : Res unit :=
  if cond then Ok tt else Err (YulAssertion msg).
Definition yulAssert (cond : bool) (msg : string) : M unit := lift (assertR cond msg).

(** Calling a hook. *)
Definition call_hook (p : Primitive) : M unit :=
  fun st => (Ok tt, {| current := current st; emitted := emitted st ++ [p] |}).

Definition get_current : M Stack := fun st => (Ok (current st), st).
Definition set_current (c : Stack) : M unit :=
  fun st => (Ok tt, {| current := c; emitted := emitted st |}).

(** [std::swap(v.at(i), v.back())]: [at] throws when [i] is out of range,
    before anything is written. *)
Definition swap_with_back (v : Stack) (i : N) : Res Stack :=
  let* x := at_ v i in
  match last v with
  | Some y => Ok (<[N.to_nat i := y]> (<[Nat.pred (length v) := x]> v))
  | None => Err StdOutOfRange
  end.

(** [ShuffleOperations::swap], lines 293-297. *)
Definition swap (_i : N) : M unit :=
  do _ <- call_hook (SwapCall (to_unsigned _i));
  do c <- get_current;
  do c' <- lift (swap_with_back c (usub (usub (vsize c) _i) 1));
  set_current c'.

(** [ShuffleOperations::pop], lines 300-304.  ([pop_back] has no defined
    behaviour on an empty vector; a step pops only after the stop check
    failed, which it does not on the empty stack.) *)
Definition pop : M unit :=
  do _ <- call_hook PopCall;
  do c <- get_current;
  set_current (removelast c).

(** [ShuffleOperations::pushOrDupTarget], lines 305-310. *)
Definition pushOrDupTarget (ops : ShuffleOperations) (_offset : N) : M unit :=
  do targetSlot <- lift (at_ (targetStack ops) _offset);
  do _ <- call_hook (PushOrDupCall targetSlot);
  do c <- get_current;
  set_current (c ++ [targetSlot]).

(** ** [bringUpTargetSlot], lines 152-176 *)

Definition inspect {A} (a : A) : {b : A | a = b} := exist _ a eq_refl.

(** Length of the longest prefix of the worklist made of offsets that were
    visited before. *)
Fixpoint visited_prefix (visited : gset N) (toVisit : list N) : nat :=
  match toVisit with
  | [] => 0
  | offset :: rest =>
      if decide (offset ∈ visited) then S (visited_prefix visited rest) else 0
  end.

(** The loop terminates although an offset can be queued several times:
    every iteration either visits a new offset, or consumes one of the
    already visited offsets at the front of the worklist. *)
Definition worklist_measure (bound : N) (toVisit : list N) (visited : gset N) : nat * nat :=
  (size ((list_to_set (iota bound) ∪ list_to_set toVisit) ∖ visited),
   visited_prefix visited toVisit).

(** The order on measures: lexicographic.  Its proof of well-foundedness is
    wrapped in layers of [Acc_intro], so that the loop below can be
    evaluated without inspecting the proofs that the measure decreases. *)
Definition worklist_order : nat * nat -> nat * nat -> Prop := lexprod nat nat lt lt.

#[local] Instance worklist_order_wf : WellFounded worklist_order :=
  Acc_intro_generator 64 (wf_lexprod nat nat lt lt lt_wf lt_wf).
Opaque worklist_order_wf.

Section BringUp.
Context (ops : ShuffleOperations).

(** The condition under which [nextOffset] is appended to the worklist
    while [offset] is processed (lines 168-172). *)
Definition queues (offset : N) (visited : gset N) (nextOffset : N) : Res bool :=
  notR (isCompatible ops nextOffset nextOffset) &&&
  isCompatible ops nextOffset offset &&&
  Ok (bool_decide (nextOffset ∉ visited)).

(** The [for] loop of lines 167-173: the offsets appended to the worklist. *)
Definition queued (offset : N) (visited : gset N) : Res (list N) :=
  collect (iota (N.min (sourceSize ops) (targetSize ops))) (queues offset visited).

(** The [while (!toVisit.empty())] loop.  It yields the offset at which
    [pushOrDupTarget] is called (after which the lambda returns), or fails:
    with the assertion of line 175 when the worklist runs empty, or with the
    exception of a lookup. *)
Equations? bringUpSearch (toVisit : list N) (visited : gset N) : Res N
  by wf (worklist_measure (N.min (sourceSize ops) (targetSize ops)) toVisit visited)
        worklist_order :=
bringUpSearch [] visited := Err (YulAssertion "");
bringUpSearch (offset :: rest) visited with inspect (targetMultiplicity ops offset) => {
  | exist _ (Err e) _ := Err e;
  | exist _ (Ok m) _ with inspect (0 <? m)%Z => {
    | exist _ true _ := Ok offset;
    | exist _ false _ with inspect (queued offset ({[offset]} ∪ visited)) => {
      | exist _ (Err e) _ := Err e;
      | exist _ (Ok next) Hnext :=
          bringUpSearch (rest ++ next) ({[offset]} ∪ visited) } } }.
Proof.
  clear bringUpSearch. unfold queued in Hnext.
  set (bound := N.min (sourceSize ops) (targetSize ops)) in *.
  (* what the inner loop appends comes from the range and was not visited *)
  assert (Hfresh : ∀ i, i ∈ next -> (i ∉ {[offset]} ∪ visited) ∧ i ∈ iota bound).
  { revert next Hnext. generalize (iota bound) as l.
    induction l as [|j l IH]; intros next Hnext i Hi; simpl in Hnext.
    - injection Hnext as Hnext. subst next. inversion Hi.
    - destruct (queues offset ({[offset]} ∪ visited) j) as [b|] eqn:Hq;
        simpl in Hnext; [|discriminate].
      destruct (collect l (queues offset ({[offset]} ∪ visited))) as [tail|] eqn:Htail;
        simpl in Hnext; [|discriminate].
      injection Hnext as Hnext. subst next.
      assert (Hhead : b = true -> j ∉ {[offset]} ∪ visited).
      { intros ->. unfold queues in Hq.
        destruct (notR _ &&& _) as [[]|]; simpl in Hq; try discriminate.
        injection Hq as Hq. by apply bool_decide_eq_true in Hq. }
      assert (Hin : i = j ∧ b = true ∨ i ∈ tail).
      { destruct b; [apply elem_of_cons in Hi as [->|Hi]|]; auto. }
      destruct Hin as [[-> ->]|Hin].
      + split; [by apply Hhead|by left].
      + destruct (IH tail eq_refl i Hin). split; [done|by right]. }
  (* so the prefix of visited offsets is the one of the rest of the worklist *)
  assert (Hprefix : visited_prefix ({[offset]} ∪ visited) (rest ++ next)
                    = visited_prefix ({[offset]} ∪ visited) rest).
  { clear Hnext. induction rest as [|x rest IH]; simpl.
    - destruct next as [|y next]; simpl; [done|].
      destruct (decide (y ∈ {[offset]} ∪ visited)) as [Hy|]; [|done].
      exfalso. apply (Hfresh y); [by left|done].
    - destruct (decide (x ∈ {[offset]} ∪ visited)); [by rewrite IH|done]. }
  unfold worklist_order, worklist_measure. rewrite Hprefix.
  assert (Hle : (size ((list_to_set (iota bound) ∪ list_to_set (rest ++ next))
                       ∖ ({[offset]} ∪ visited))
                 ≤ size ((list_to_set (iota bound) ∪ list_to_set (offset :: rest)) ∖ visited)
                 ∧ (offset ∉ visited ->
                    size ((list_to_set (iota bound) ∪ list_to_set (rest ++ next))
                          ∖ ({[offset]} ∪ visited))
                    < size ((list_to_set (iota bound) ∪ list_to_set (offset :: rest))
                            ∖ visited)))%nat).
  { assert (Hsub : (list_to_set (iota bound) ∪ list_to_set (rest ++ next))
                     ∖ ({[offset]} ∪ visited)
                   ⊆ (list_to_set (iota bound) ∪ list_to_set (offset :: rest)) ∖ visited).
    { intros i. rewrite !elem_of_difference, !elem_of_union, !elem_of_list_to_set,
        elem_of_app, elem_of_cons, elem_of_singleton.
      intros [[Hi|[Hi|Hi]] Hni]; (split; [|tauto]); auto.
      left. by apply Hfresh. }
    split; [by apply subseteq_size|].
    intros Hout. apply subset_size. split; [done|].
    intros Hrev. specialize (Hrev offset).
    rewrite !elem_of_difference, !elem_of_union, !elem_of_list_to_set,
      elem_of_cons, elem_of_singleton in Hrev.
    destruct Hrev as [_ Hrev]; [split; auto|]. tauto. }
  destruct Hle as [Hle Hlt].
  destruct (decide (offset ∈ visited)) as [Hin|Hout].
  - simpl. rewrite decide_True by done.
    assert (Hv : {[offset]} ∪ visited = visited).
    { apply set_eq. intros i. rewrite elem_of_union, elem_of_singleton.
      split; [intros [->|]; done|auto]. }
    rewrite Hv in *.
    apply Nat.lt_eq_cases in Hle as [Hless|Heq].
    + by apply left_lex.
    + rewrite Heq. apply right_lex. lia.
  - apply left_lex. by apply Hlt.
Qed.

(** The lambda [bringUpTargetSlot]. *)
Definition bringUpTargetSlot (_targetOffset : N) : M unit :=
  do offset <- lift (bringUpSearch [_targetOffset] ∅);
  pushOrDupTarget ops offset.

End BringUp.

(** ** [Shuffler::shuffleStep], lines 112-238 *)

Section StepClauses.
Context (ops : ShuffleOperations).

(** [size_t sourceTop = ops.sourceSize() - 1;] *)
Definition sourceTop : N := usub (sourceSize ops) 1.

(** Lines 118-121: all slots in the source are compatible with the target. *)
Definition allCompatible : Res bool :=
  all_of (iota (sourceSize ops)) (fun _index => isCompatible ops _index _index).

(** Lines 127-130: the stack top is no longer needed. *)
Definition surplusTop : Res bool :=
  (let* m := sourceMultiplicity ops sourceTop in Ok (m <? 0)%Z) &&&
  notR (Ok (sourceSize ops <=? targetSize ops) &&& targetIsArbitrary ops sourceTop).

(** Lines 139-146: a lower position to swap the top down to. *)
Definition lowerHome : Res (option N) :=
  let* enter := notR (isCompatible ops sourceTop sourceTop) ||| targetIsArbitrary ops sourceTop in
  if enter then
    first_of (iota (N.min (sourceSize ops) (targetSize ops))) (fun offset =>
      notR (isCompatible ops offset offset) &&&
      notR (sourceIsSame ops offset sourceTop) &&&
      isCompatible ops sourceTop offset)
  else Ok None.

(** Lines 180-186: a lower slot that should be removed. *)
Definition lowerSurplus : Res (option N) :=
  first_of (iota (sourceSize ops)) (fun offset =>
    notR (isCompatible ops offset offset) &&&
    (let* m := sourceMultiplicity ops offset in Ok (m <? 0)%Z) &&&
    Ok (offset <=? targetSize ops) &&&
    notR (targetIsArbitrary ops offset)).

(** Lines 193-195. *)
Definition keepAll : Res unit :=
  let* _ := assert_each (iota (sourceSize ops)) (fun i =>
              let* m := sourceMultiplicity ops i in Ok (0 <=? m)%Z) in
  assertR (sourceSize ops <=? targetSize ops) "".

(** Lines 198-203: a slot that wants to be at the top. *)
Definition wantsTop : Res (option N) :=
  let* enter := notR (isCompatible ops sourceTop sourceTop) in
  if enter then
    first_of (iota (sourceSize ops)) (fun sourceOffset =>
      notR (isCompatible ops sourceOffset sourceOffset) &&&
      isCompatible ops sourceOffset sourceTop)
  else Ok None.

(** Lines 217-221. *)
Definition exactLayout : Res unit :=
  let* _ := assertR (sourceSize ops =? targetSize ops) "" in
  let* _ := assert_each (iota (sourceSize ops)) (fun i =>
              (let* m := sourceMultiplicity ops i in Ok (m =? 0)%Z) &&&
              (targetIsArbitrary ops i |||
               (let* m := targetMultiplicity ops i in Ok (m =? 0)%Z))) in
  let* top := isCompatible ops sourceTop sourceTop in
  assertR top "".

(** Lines 224-225: a lower slot out of position and compatible with the top. *)
Definition lowerForTop : Res (option N) :=
  first_of (iota (sourceSize ops)) (fun offset =>
    notR (isCompatible ops offset offset) &&& isCompatible ops sourceTop offset).

(** Lines 231-232: any slot that is still out of position. *)
Definition lowerOutOfPosition : Res (option N) :=
  first_of (iota (sourceSize ops)) (fun offset =>
    notR (isCompatible ops offset offset) &&& notR (sourceIsSame ops offset sourceTop)).

(** [ops.swap(ops.sourceSize() - offset - 1); return true;] *)
Definition swapUp (offset : N) : M bool :=
  do _ <- swap (usub (usub (sourceSize ops) offset) 1);
  ret true.
End StepClauses.

Definition shuffleStep (target : Stack) : M bool :=
  do c <- get_current;
  do ops <- lift (mkShuffleOperations c target);
  do stop <- lift (allCompatible ops);
  if stop then ret false else
  do surplus <- lift (surplusTop ops);
  if surplus then (do _ <- pop; ret true) else
  do _ <- yulAssert (0 <? targetSize ops) "";
  do lower <- lift (lowerHome ops);
  match lower with Some offset => swapUp ops offset | None =>
  do lower <- lift (lowerSurplus ops);
  match lower with Some offset => (do _ <- bringUpTargetSlot ops offset; ret true) | None =>
  do _ <- lift (keepAll ops);
  do upper <- lift (wantsTop ops);
  match upper with Some sourceOffset => swapUp ops sourceOffset | None =>
  if sourceSize ops <? targetSize ops
  then (do _ <- bringUpTargetSlot ops (sourceSize ops); ret true) else
  do _ <- lift (exactLayout ops);
  do lower <- lift (lowerForTop ops);
  match lower with Some offset => swapUp ops offset | None =>
  do lower <- lift (lowerOutOfPosition ops);
  match lower with Some offset => swapUp ops offset | None =>
  throw (YulAssertion "")
  end end end end end.

(** ** [Shuffler::shuffle], lines 99-108 *)

(** The [while] loop; [remaining] is [1000 - iterationCount].  The result is
    the value of [needsMoreShuffling] when the loop is left. *)
Fixpoint shuffleLoop (target : Stack) (remaining : nat) (needsMoreShuffling : bool) : M bool :=
  match remaining with
  | O => ret needsMoreShuffling
  | S remaining' =>
      do more <- shuffleStep target;
      if more then shuffleLoop target remaining' more else ret more
  end.

Definition shuffle (target : Stack) : M unit :=
  do needsMoreShuffling <- shuffleLoop target 1000 true;
  yulAssert (negb needsMoreShuffling) "Could not create stack layout after 1000 iterations.".

(** ** [createStackLayout], lines 245-327 *)

(** Lines 315-319. *)
Equations? pushRemaining (target : Stack) (st : Machine) : Res unit * Machine
  by wf (length target - length (current st))%nat lt :=
pushRemaining target st with inspect (vsize (current st) <? vsize target) => {
  | exist _ false _ := (Ok tt, st);
  | exist _ true Hlt with at_ target (vsize (current st)) => {
    | Err e := (Err e, st);
    | Ok slot :=
        pushRemaining target {| current := current st ++ [slot];
                                emitted := emitted st ++ [PushOrDupCall slot] |} } }.
Proof.
  apply N.ltb_lt in Hlt. unfold vsize in Hlt. simpl. rewrite length_app. simpl. lia.
Qed.

(** Lines 322-326: the stack after the loop (or at the failing assertion). *)
Fixpoint normalizeJunk (cur target : Stack) : Res unit * Stack :=
  match cur, target with
  | c :: cur', t :: target' =>
      if holds_JunkSlot t then
        let '(r, cur'') := normalizeJunk cur' target' in (r, JunkSlot :: cur'')
      else if slot_eqb c t then
        let '(r, cur'') := normalizeJunk cur' target' in (r, c :: cur'')
      else (Err (YulAssertion ""), c :: cur')
  | _, _ => (Ok tt, cur)
  end.

Definition normalize (target : Stack) : M unit :=
  fun st =>
    let '(r, c) := normalizeJunk (current st) target in
    (r, {| current := c; emitted := emitted st |}).

Definition createStackLayout (target : Stack) : M unit :=
  do _ <- shuffle target;
  do _ <- pushRemaining target;
  do c <- get_current;
  do _ <- yulAssert (vsize c =? vsize target) "";
  normalize target.

(** Running the transformer on a stack with no hook called yet. *)
Definition run (m : M unit) (c : Stack) : Res unit * Machine :=
  m {| current := c; emitted := [] |}.

(** * Notions the statements are written with *)

(** The value of [isCompatible], which never throws: both lookups are
    guarded by the range checks in front of them. *)
Definition compatible (ops : ShuffleOperations) (s t : N) : bool :=
  match currentStack ops !! N.to_nat s, targetStack ops !! N.to_nat t with
  | Some a, Some b => holds_JunkSlot b || slot_eqb a b
  | _, _ => false
  end.

(** The slot that target position [t], holding [slot], counts as an
    occurrence of: the current slot at [t] when [slot] is junk and the
    current stack has a position [t], and [slot] itself otherwise. *)
Definition occurrence (current : Stack) (entry : N * StackSlot) : StackSlot :=
  if holds_JunkSlot entry.2 && (entry.1 <? vsize current)
  then default JunkSlot (current !! N.to_nat entry.1)
  else entry.2.

Definition occurrences (current target : Stack) : list StackSlot :=
  occurrence current <$> enumerate target.

(** Number of elements of [l] identical to [x]. *)
Definition count (x : StackSlot) (l : list StackSlot) : Z :=
  Z.of_nat (length (filter (λ y, y = x) l)).

(** [m[x]], reading a missing key as zero. *)
Definition entry_of (m : gmap StackSlot Z) (x : StackSlot) : Z := default 0%Z (m !! x).

Definition popped (st : Machine) : Machine :=
  {| current := removelast (current st); emitted := emitted st ++ [PopCall] |}.

Definition pushed (slot : StackSlot) (st : Machine) : Machine :=
  {| current := current st ++ [slot]; emitted := emitted st ++ [PushOrDupCall slot] |}.

(** The two calls of [bringUpTargetSlot] in [shuffleStep], each under the
    conditions that lead the control flow to it: line 188, for the first
    lower slot that should be removed, and line 212, for the position just
    above the source. *)
Inductive bringUpArgument (ops : ShuffleOperations) : N -> Prop :=
| bringUp_lowerSurplus offset :
    allCompatible ops = Ok false ->
    surplusTop ops = Ok false ->
    (0 <? targetSize ops) = true ->
    lowerHome ops = Ok None ->
    lowerSurplus ops = Ok (Some offset) ->
    bringUpArgument ops offset
| bringUp_grow :
    allCompatible ops = Ok false ->
    surplusTop ops = Ok false ->
    (0 <? targetSize ops) = true ->
    lowerHome ops = Ok None ->
    lowerSurplus ops = Ok None ->
    keepAll ops = Ok tt ->
    wantsTop ops = Ok None ->
    (sourceSize ops <? targetSize ops) = true ->
    bringUpArgument ops (sourceSize ops).

(** What a step does, read off the control flow of [shuffleStep]: it
    returns [false] and leaves the machine alone; or throws before a
    primitive is called; or ends in [pop], in [swap] (from one of the four
    places that call it) or in [pushOrDupTarget] (from [bringUpTargetSlot]). *)
Inductive StepShape (target : Stack) (st : Machine) : Res bool -> Machine -> Prop :=
| StepStops ops :
    mkShuffleOperations (current st) target = Ok ops ->
    allCompatible ops = Ok true ->
    StepShape target st (Ok false) st
| StepThrows e :
    StepShape target st (Err e) st
| StepPops ops :
    mkShuffleOperations (current st) target = Ok ops ->
    allCompatible ops = Ok false ->
    surplusTop ops = Ok true ->
    StepShape target st (Ok true) (popped st)
| StepSwaps ops offset r st' :
    mkShuffleOperations (current st) target = Ok ops ->
    allCompatible ops = Ok false ->
    offset < sourceSize ops ->
    offset ≠ sourceTop ops ->
    swap (usub (usub (sourceSize ops) offset) 1) st = (r, st') ->
    StepShape target st (let* _ := r in Ok true) st'
| StepPushes ops _targetOffset offset slot :
    mkShuffleOperations (current st) target = Ok ops ->
    bringUpArgument ops _targetOffset ->
    bringUpSearch ops [_targetOffset] ∅ = Ok offset ->
    at_ (targetStack ops) offset = Ok slot ->
    StepShape target st (Ok true) (pushed slot st).

(** [trueSteps target k st st']: [k] consecutive calls of [shuffleStep],
    each returning [true], take the machine from [st] to [st']. *)
Inductive trueSteps (target : Stack) : nat -> Machine -> Machine -> Prop :=
| trueSteps_O st : trueSteps target 0 st st
| trueSteps_S k st st1 st2 :
    shuffleStep target st = (Ok true, st1) ->
    trueSteps target k st1 st2 ->
    trueSteps target (S k) st st2.

Definition nonTermination : Error :=
  YulAssertion "Could not create stack layout after 1000 iterations.".

(** One iteration of the [while] loop of [bringUpTargetSlot] that does not
    leave it, as a relation between the values of [toVisit] and [visited]
    before and after. *)
Inductive worklistStep (ops : ShuffleOperations) : list N * gset N -> list N * gset N -> Prop :=
| worklist_next offset rest visited m next :
    targetMultiplicity ops offset = Ok m ->
    (0 <? m)%Z = false ->
    queued ops offset ({[offset]} ∪ visited) = Ok next ->
    worklistStep ops (offset :: rest, visited) (rest ++ next, {[offset]} ∪ visited).

(** A step that reaches line 188: the source [a, a, b] against the target
    [a, b, b] has a surplus [a] at offset 1. *)
Definition surplus_example : ShuffleOperations :=
  {| currentStack := [VariableSlot 0; VariableSlot 0; VariableSlot 1];
     targetStack := [VariableSlot 0; VariableSlot 1; VariableSlot 1];
     multiplicity := <[VariableSlot 0 := (-1)%Z]> (<[VariableSlot 1 := 1%Z]> ∅) |}.

(** The sum of the entries of a multiplicity table. *)
Definition total (m : gmap StackSlot Z) : Z :=
  map_fold (λ _ v acc, (v + acc)%Z) 0%Z m.

(** Every position of [cur] holds a slot the target accepts there: the
    stop predicate of [shuffleStep], position by position. *)
Definition agrees (cur target : Stack) : Prop :=
  ∀ i x, cur !! i = Some x -> exists t, target !! i = Some t ∧ (t = JunkSlot ∨ x = t).

(** What the primitive behind a hook call does to the current stack, as a
    function of the hook call alone (lines 296, 303 and 309): [swap(depth)]
    exchanges the top with the slot [depth] below it, [pop] removes the
    top, [pushOrDup(slot)] appends [slot].  [None] when the stack is too
    short for the call. *)
Definition apply_primitive (p : Primitive) (c : Stack) : option Stack :=
  match p with
  | SwapCall depth =>
      if depth <? vsize c then
        match swap_with_back c (vsize c - 1 - depth) with
        | Ok c' => Some c'
        | Err _ => None
        end
      else None
  | PopCall => match c with [] => None | _ => Some (removelast c) end
  | PushOrDupCall slot => Some (c ++ [slot])
  end.

(** The hook calls of a trace, applied in order. *)
Fixpoint replay (trace : list Primitive) (c : Stack) : option Stack :=
  match trace with
  | [] => Some c
  | p :: trace' =>
      match apply_primitive p c with
      | Some c' => replay trace' c'
      | None => None
      end
  end.

(** * Properties *)

(** ** Results with exceptions *)

Lemma collect_spec l cond out :
  collect l cond = Ok out ->
  ∀ i, i ∈ out ↔ i ∈ l ∧ cond i = Ok true.
Proof.
  revert out. induction l as [|j l IH]; intros out H i; simpl in H.
  - injection H as Hout; subst out. set_solver.
  - destruct (cond j) as [b|e] eqn:Hc; simpl in H; [|discriminate].
    destruct (collect l cond) as [rest|e] eqn:Hr; simpl in H; [|discriminate].
    injection H as Hout; subst out. specialize (IH rest eq_refl i).
    destruct b; rewrite ?elem_of_cons, IH; split.
    + intros [->|[? ?]]; [split; [by left|done]|split; [by right|done]].
    + intros [[->|?] ?]; [by left|by right].
    + intros [? ?]; split; [by right|done].
    + intros [[->|?] ?]; [congruence|done].
Qed.

Lemma andR_true a b : a &&& b = Ok true -> a = Ok true ∧ b = Ok true.
Proof. destruct a as [[]|]; simpl; intros; try discriminate; auto. Qed.

Lemma elem_of_iota i n : i ∈ iota n ↔ i < n.
Proof.
  unfold iota. rewrite list_elem_of_fmap. split.
  - intros (k & -> & Hk). apply elem_of_seq in Hk. lia.
  - intros Hi. exists (N.to_nat i). split; [lia|]. apply elem_of_seq. lia.
Qed.

(** ** Vectors and [size_t] arithmetic *)

Lemma usub_no_wrap a b : b <= a -> a < size_t_modulus -> usub a b = a - b.
Proof.
  intros Hba Ha. unfold usub.
  rewrite (N.mod_small b) by lia.
  replace (a + size_t_modulus - b) with ((a - b) + 1 * size_t_modulus) by lia.
  rewrite N.Div0.mod_add. apply N.mod_small. lia.
Qed.

Lemma at_Ok {A} (v : list A) i x : at_ v i = Ok x <-> v !! N.to_nat i = Some x.
Proof.
  unfold at_. destruct (v !! N.to_nat i); split; intros H; congruence.
Qed.

Lemma at_in_range {A} (v : list A) i : i < vsize v -> exists x, at_ v i = Ok x.
Proof.
  intros Hi. unfold at_, vsize in *.
  destruct (lookup_lt_is_Some_2 v (N.to_nat i)) as [x Hx]; [lia|].
  exists x. by rewrite Hx.
Qed.

Lemma at_Ok_lt {A} (v : list A) i x : at_ v i = Ok x -> i < vsize v.
Proof.
  intros H. apply at_Ok in H. apply lookup_lt_Some in H. unfold vsize. lia.
Qed.

Lemma at_out_of_range {A} (v : list A) i : vsize v <= i -> at_ v i = Err StdOutOfRange.
Proof.
  intros Hi. unfold at_, vsize in *. rewrite lookup_ge_None_2; [done|lia].
Qed.

Lemma length_iota n : length (iota n) = N.to_nat n.
Proof. unfold iota. by rewrite length_fmap, length_seq. Qed.

Lemma slot_eqb_eq a b : slot_eqb a b = true <-> a = b.
Proof. unfold slot_eqb. apply bool_decide_eq_true. Qed.

Lemma holds_JunkSlot_eq s : holds_JunkSlot s = true <-> s = JunkSlot.
Proof. destruct s; simpl; split; congruence. Qed.

(** ** Loops over ranges *)

Lemma all_of_true l pred :
  all_of l pred = Ok true <-> ∀ i, i ∈ l -> pred i = Ok true.
Proof.
  induction l as [|j l IH]; simpl.
  - split; [intros _ i Hi; inversion Hi|done].
  - destruct (pred j) as [[]|e] eqn:Hj; simpl.
    + rewrite IH. split.
      * intros H i Hi. apply elem_of_cons in Hi as [->|Hi]; auto.
      * intros H i Hi. apply H. by right.
    + split; [discriminate|]. intros H. specialize (H j). rewrite Hj in H.
      apply H. by left.
    + split; [discriminate|]. intros H. specialize (H j). rewrite Hj in H.
      apply H. by left.
Qed.

Lemma first_of_Some l cond i :
  first_of l cond = Ok (Some i) -> i ∈ l ∧ cond i = Ok true.
Proof.
  induction l as [|j l IH]; simpl; [discriminate|].
  destruct (cond j) as [[]|e] eqn:Hj; simpl; [| |discriminate].
  - intros [= ->]. split; [by left|done].
  - intros H. destruct (IH H). split; [by right|done].
Qed.

Lemma first_of_None l cond :
  first_of l cond = Ok None -> ∀ i, i ∈ l -> cond i = Ok false.
Proof.
  induction l as [|j l IH]; simpl; [intros _ i Hi; inversion Hi|].
  destruct (cond j) as [[]|e] eqn:Hj; simpl; [discriminate| |discriminate].
  intros H i Hi. apply elem_of_cons in Hi as [->|Hi]; auto.
Qed.

(** ** The queries of the adapter *)

Lemma isCompatible_compatible ops s t : isCompatible ops s t = Ok (compatible ops s t).
Proof.
  unfold isCompatible, compatible, sourceSize, targetSize.
  destruct (N.ltb_spec s (vsize (currentStack ops))) as [Hs|Hs]; simpl.
  - destruct (N.ltb_spec t (vsize (targetStack ops))) as [Ht|Ht]; simpl.
    + destruct (at_in_range _ _ Hs) as [a Ha], (at_in_range _ _ Ht) as [b Hb].
      rewrite Ha, Hb. apply at_Ok in Ha, Hb. rewrite Ha, Hb. simpl.
      by destruct (holds_JunkSlot b).
    + unfold vsize in Ht. rewrite (lookup_ge_None_2 (targetStack ops)) by lia.
      by destruct (currentStack ops !! N.to_nat s).
  - unfold vsize in Hs. by rewrite (lookup_ge_None_2 (currentStack ops)) by lia.
Qed.

Lemma compatible_true ops s t :
  compatible ops s t = true <->
  exists a b, currentStack ops !! N.to_nat s = Some a ∧
              targetStack ops !! N.to_nat t = Some b ∧ (b = JunkSlot ∨ a = b).
Proof.
  unfold compatible.
  destruct (currentStack ops !! N.to_nat s) as [a|], (targetStack ops !! N.to_nat t) as [b|];
    try (split; [discriminate|intros (? & ? & ? & ? & ?); discriminate]).
  rewrite orb_true_iff, holds_JunkSlot_eq, slot_eqb_eq. split.
  - intros H. by exists a, b.
  - intros (? & ? & [= <-] & [= <-] & H). done.
Qed.

Lemma targetIsArbitrary_value ops t :
  targetIsArbitrary ops t =
  Ok (match targetStack ops !! N.to_nat t with Some b => holds_JunkSlot b | None => false end).
Proof.
  unfold targetIsArbitrary, targetSize.
  destruct (N.ltb_spec t (vsize (targetStack ops))) as [Ht|Ht]; simpl.
  - destruct (at_in_range _ _ Ht) as [b Hb]. rewrite Hb. apply at_Ok in Hb. by rewrite Hb.
  - unfold vsize in Ht. by rewrite lookup_ge_None_2 by lia.
Qed.

(** C5.  For all indices [s] and [t], [isCompatible(s, t)] returns (it does
    not throw), and it returns [true] exactly when [s] is in range of the
    current stack, [t] is in range of the target stack, and the target slot
    at [t] is junk or is identical to the current slot at [s]; so it returns
    [false] whenever an index is out of range. *)
Theorem isCompatible_iff (ops : ShuffleOperations) (s t : N) :
  exists b : bool,
    isCompatible ops s t = Ok b ∧
    (b = true <->
     s < vsize (currentStack ops) ∧ t < vsize (targetStack ops) ∧
     exists x y, at_ (currentStack ops) s = Ok x ∧ at_ (targetStack ops) t = Ok y ∧
                 (y = JunkSlot ∨ x = y)).
Proof.
  exists (compatible ops s t). split; [apply isCompatible_compatible|].
  rewrite compatible_true. split.
  - intros (a & b & Ha & Hb & H).
    apply at_Ok in Ha, Hb. repeat split; eauto using at_Ok_lt.
  - intros (_ & _ & a & b & Ha & Hb & H). apply at_Ok in Ha, Hb. eauto.
Qed.

(** ** The multiplicity table *)

Lemma count_nil x : count x [] = 0%Z.
Proof. done. Qed.

Lemma count_cons x y l : count x (y :: l) = ((if decide (y = x) then 1 else 0) + count x l)%Z.
Proof.
  unfold count. rewrite filter_cons. destruct (decide (y = x)); simpl; lia.
Qed.

Lemma count_app x l1 l2 : count x (l1 ++ l2) = (count x l1 + count x l2)%Z.
Proof. unfold count. rewrite filter_app, length_app. lia. Qed.

Lemma count_nonneg x l : (0 <= count x l)%Z.
Proof. unfold count. lia. Qed.

Lemma count_pos_elem_of x l : (0 < count x l)%Z <-> x ∈ l.
Proof.
  induction l as [|y l IH].
  - rewrite count_nil. split; [lia|]. intros H. inversion H.
  - rewrite count_cons, elem_of_cons. pose proof (count_nonneg x l).
    destruct (decide (y = x)) as [->|Hne]; [split; [auto|lia]|].
    rewrite Z.add_0_l, IH. split; [auto|]. intros [->|?]; [done|auto].
Qed.

Lemma entry_of_decrement m s x :
  entry_of (decrement m s) x = (entry_of m x - (if decide (s = x) then 1 else 0))%Z.
Proof.
  unfold entry_of, decrement. destruct (decide (s = x)) as [->|Hne].
  - by rewrite lookup_insert_eq.
  - rewrite lookup_insert_ne by done. lia.
Qed.

Lemma entry_of_increment m s x :
  entry_of (increment m s) x = (entry_of m x + (if decide (s = x) then 1 else 0))%Z.
Proof.
  unfold entry_of, increment. destruct (decide (s = x)) as [->|Hne].
  - by rewrite lookup_insert_eq.
  - rewrite lookup_insert_ne by done. lia.
Qed.

Lemma dom_decrement m s : dom (decrement m s) = {[s]} ∪ dom m.
Proof. unfold decrement. apply dom_insert_L. Qed.

Lemma dom_increment m s : dom (increment m s) = {[s]} ∪ dom m.
Proof. unfold increment. apply dom_insert_L. Qed.

Lemma foldl_decrement current m :
  (∀ x, entry_of (foldl decrement m current) x = (entry_of m x - count x current)%Z) ∧
  dom (foldl decrement m current) = list_to_set current ∪ dom m.
Proof.
  revert m. induction current as [|s current IH]; intros m; simpl.
  - split; [intros x; rewrite count_nil; lia|set_solver].
  - destruct (IH (decrement m s)) as [IH1 IH2]. split.
    + intros x. rewrite IH1, entry_of_decrement, count_cons. lia.
    + rewrite IH2, dom_decrement. set_solver.
Qed.

Lemma countTarget_Ok current m entry :
  countTarget current m entry = Ok (increment m (occurrence current entry)).
Proof.
  destruct entry as [offset slot]. unfold countTarget, occurrence. simpl.
  destruct (holds_JunkSlot slot); simpl; [|done].
  destruct (N.ltb_spec offset (vsize current)) as [Hlt|Hge]; [|done].
  destruct (at_in_range _ _ Hlt) as [a Ha]. rewrite Ha. apply at_Ok in Ha.
  by rewrite Ha.
Qed.

Lemma countTargets_Ok current m entries :
  exists m', countTargets current m entries = Ok m' ∧
    (∀ x, entry_of m' x = (entry_of m x + count x (occurrence current <$> entries))%Z) ∧
    dom m' = list_to_set (occurrence current <$> entries) ∪ dom m.
Proof.
  revert m. induction entries as [|entry entries IH]; intros m;
    cbn [countTargets]; rewrite ?fmap_nil, ?fmap_cons.
  - exists m. split; [done|]. split; [intros x; rewrite count_nil; lia|set_solver].
  - rewrite countTarget_Ok. cbn [bindR].
    destruct (IH (increment m (occurrence current entry))) as (m' & -> & Hm' & Hdom).
    exists m'. split; [done|]. split.
    + intros x. rewrite Hm', entry_of_increment, count_cons. lia.
    + rewrite Hdom, dom_increment. set_solver.
Qed.

(** The constructor never throws, and its table is the one described. *)
Lemma mkShuffleOperations_Ok current target :
  exists ops, mkShuffleOperations current target = Ok ops ∧
    currentStack ops = current ∧ targetStack ops = target ∧
    (∀ x, entry_of (multiplicity ops) x
          = (count x (occurrences current target) - count x current)%Z) ∧
    dom (multiplicity ops) = list_to_set (occurrences current target) ∪ list_to_set current.
Proof.
  unfold mkShuffleOperations.
  destruct (countTargets_Ok current (foldl decrement ∅ current) (enumerate target))
    as (m & -> & Hm & Hdom).
  destruct (foldl_decrement current ∅) as [H0 Hd0].
  eexists. split; [done|]. simpl. repeat split.
  - intros x. rewrite Hm, H0. unfold occurrences.
    replace (entry_of ∅ x) with 0%Z by (unfold entry_of; by rewrite lookup_empty). lia.
  - rewrite Hdom, Hd0. unfold occurrences. set_solver.
Qed.

(** C4.  Constructing the adapter over [current] and [target] succeeds, and
    for every slot [x] the multiplicity table holds at [x] (a missing entry
    reading as zero) the number of target positions that count as an
    occurrence of [x] minus the number of occurrences of [x] in [current];
    a target position [t] holding junk with [t < |current|] counts as an
    occurrence of [current[t]], every other position as an occurrence of the
    target slot it holds. *)
Theorem multiplicity_table (current target : Stack) :
  exists ops, mkShuffleOperations current target = Ok ops ∧
    ∀ x, entry_of (multiplicity ops) x
         = (count x (occurrence current <$> enumerate target) - count x current)%Z.
Proof.
  destruct (mkShuffleOperations_Ok current target) as (ops & Hops & _ & _ & Hm & _).
  exists ops. split; [done|]. intros x. apply Hm.
Qed.

(** ** The primitives *)

Lemma pop_popped st : pop st = (Ok tt, popped st).
Proof. reflexivity. Qed.

Lemma swap_emitted _i st r st' :
  swap _i st = (r, st') ->
  emitted st' = emitted st ++ [SwapCall (to_unsigned _i)] ∧
  length (current st') = length (current st).
Proof.
  unfold swap, bind, call_hook, get_current, lift, set_current. simpl.
  destruct (swap_with_back _ _) as [c'|e] eqn:Hsw; intros [= <- <-]; simpl; [|done].
  split; [done|]. unfold swap_with_back in Hsw.
  destruct (at_ _ _); simpl in Hsw; [|discriminate].
  destruct (last _); [|discriminate]. injection Hsw as <-.
  by rewrite !length_insert.
Qed.

Lemma pushOrDupTarget_cases ops _offset st :
  (exists slot, at_ (targetStack ops) _offset = Ok slot ∧
                pushOrDupTarget ops _offset st = (Ok tt, pushed slot st)) ∨
  (exists e, pushOrDupTarget ops _offset st = (Err e, st)).
Proof.
  unfold pushOrDupTarget, bind, lift.
  destruct (at_ (targetStack ops) _offset) as [slot|e]; [left|right]; eauto.
Qed.

Lemma swapUp_inv ops offset st r st' :
  swapUp ops offset st = (r, st') ->
  exists r0, swap (usub (usub (sourceSize ops) offset) 1) st = (r0, st') ∧
             r = (let* _ := r0 in Ok true).
Proof.
  unfold swapUp, bind.
  destruct (swap _ st) as [[[]|e] st1]; intros [= <- <-]; eauto.
Qed.

(** ** The clauses of a step *)

Lemma notR_true a : notR a = Ok true -> a = Ok false.
Proof. destruct a as [[]|]; simpl; congruence. Qed.

Lemma sourceIsSame_refl ops i b : sourceIsSame ops i i = Ok b -> b = true.
Proof.
  unfold sourceIsSame. destruct (at_ (currentStack ops) i); simpl; [|discriminate].
  intros [= <-]. by apply slot_eqb_eq.
Qed.

Lemma lowerHome_Some ops offset :
  lowerHome ops = Ok (Some offset) ->
  offset < sourceSize ops ∧ offset < targetSize ops ∧ offset ≠ sourceTop ops.
Proof.
  unfold lowerHome. destruct (_ ||| _) as [[]|]; simpl; try discriminate.
  intros H. apply first_of_Some in H as [Hin H]. apply elem_of_iota in Hin.
  apply andR_true in H as [H _]. apply andR_true in H as [_ H].
  apply notR_true in H. repeat split; try lia.
  intros ->. by apply sourceIsSame_refl in H.
Qed.

Lemma wantsTop_Some ops sourceOffset :
  wantsTop ops = Ok (Some sourceOffset) ->
  sourceOffset < sourceSize ops ∧ sourceOffset ≠ sourceTop ops.
Proof.
  unfold wantsTop. rewrite isCompatible_compatible.
  destruct (compatible ops (sourceTop ops) (sourceTop ops)) eqn:Htop; simpl; [discriminate|].
  intros H. apply first_of_Some in H as [Hin H]. apply elem_of_iota in Hin.
  apply andR_true in H as [_ H]. rewrite isCompatible_compatible in H.
  split; [done|]. intros ->. congruence.
Qed.

Lemma exactLayout_top ops :
  exactLayout ops = Ok tt -> compatible ops (sourceTop ops) (sourceTop ops) = true.
Proof.
  unfold exactLayout. destruct (assertR _ _); simpl; [|discriminate].
  destruct (assert_each _ _); simpl; [|discriminate].
  rewrite isCompatible_compatible. simpl.
  by destruct (compatible ops (sourceTop ops) (sourceTop ops)).
Qed.

Lemma lowerForTop_Some ops offset :
  exactLayout ops = Ok tt ->
  lowerForTop ops = Ok (Some offset) ->
  offset < sourceSize ops ∧ offset ≠ sourceTop ops.
Proof.
  intros Htop%exactLayout_top H. apply first_of_Some in H as [Hin H].
  apply elem_of_iota in Hin. apply andR_true in H as [H _].
  apply notR_true in H. rewrite isCompatible_compatible in H.
  split; [done|]. intros ->. congruence.
Qed.

Lemma lowerOutOfPosition_Some ops offset :
  lowerOutOfPosition ops = Ok (Some offset) ->
  offset < sourceSize ops ∧ offset ≠ sourceTop ops.
Proof.
  intros H. apply first_of_Some in H as [Hin H]. apply elem_of_iota in Hin.
  apply andR_true in H as [_ H]. apply notR_true in H.
  split; [done|]. intros ->. by apply sourceIsSame_refl in H.
Qed.

(** A branch of the step that throws without having called a primitive. *)
Ltac throws := intros [= <- <-]; apply StepThrows.

Lemma bringUpTargetSlot_shape target st ops _targetOffset r st' :
  mkShuffleOperations (current st) target = Ok ops ->
  bringUpArgument ops _targetOffset ->
  (let (r0, st0) := bringUpTargetSlot ops _targetOffset st in
   match r0 with Ok _ => (Ok true, st0) | Err e => (Err e, st0) end) = (r, st') ->
  StepShape target st r st'.
Proof.
  intros Hmk Hstop. unfold bringUpTargetSlot, bind, lift.
  destruct (bringUpSearch ops [_targetOffset] ∅) as [offset|e] eqn:Hsearch.
  - destruct (pushOrDupTarget_cases ops offset st) as [(slot & Hat & ->)|(e & ->)];
      intros [= <- <-]; [by eapply StepPushes|apply StepThrows].
  - intros [= <- <-]. apply StepThrows.
Qed.

Lemma swapUp_shape target st ops offset r st' :
  mkShuffleOperations (current st) target = Ok ops ->
  allCompatible ops = Ok false ->
  offset < sourceSize ops ∧ offset ≠ sourceTop ops ->
  swapUp ops offset st = (r, st') ->
  StepShape target st r st'.
Proof.
  intros Hmk Hstop [Hlt Hne] (r0 & Hswap & ->)%swapUp_inv. by eapply StepSwaps.
Qed.

Lemma shuffleStep_shape target st r st' :
  shuffleStep target st = (r, st') -> StepShape target st r st'.
Proof.
  unfold shuffleStep, bind, lift, get_current, yulAssert, ret, throw.
  destruct (mkShuffleOperations (current st) target) as [ops|e] eqn:Hmk;
    [|throws].
  destruct (allCompatible ops) as [[]|e] eqn:Hstop;
    [intros [= <- <-]; by eapply StepStops| |throws].
  destruct (surplusTop ops) as [[]|e] eqn:Hsurplus;
    [rewrite pop_popped; intros [= <- <-]; by eapply StepPops|
    |throws].
  unfold assertR. destruct (0 <? targetSize ops) eqn:Hpos;
    [|throws].
  destruct (lowerHome ops) as [[offset|]|e] eqn:Hhome;
    [intros H; apply lowerHome_Some in Hhome as (? & ? & ?); eapply swapUp_shape; eauto|
    |throws].
  destruct (lowerSurplus ops) as [[offset|]|e] eqn:Hlower;
    [apply bringUpTargetSlot_shape; [done|by constructor]|
    |throws].
  destruct (keepAll ops) as [[]|e] eqn:Hkeep; [|throws].
  destruct (wantsTop ops) as [[sourceOffset|]|e] eqn:Hwants;
    [intros H; eapply swapUp_shape; eauto using wantsTop_Some|
    |throws].
  destruct (sourceSize ops <? targetSize ops) eqn:Hgrow;
    [apply bringUpTargetSlot_shape; [done|by constructor]|].
  destruct (exactLayout ops) as [[]|e] eqn:Hexact; [|throws].
  destruct (lowerForTop ops) as [[offset|]|e] eqn:Hfor;
    [intros H; eapply swapUp_shape; eauto using lowerForTop_Some|
    |throws].
  destruct (lowerOutOfPosition ops) as [[offset|]|e] eqn:Hout;
    [intros H; eapply swapUp_shape; eauto using lowerOutOfPosition_Some|
    |throws].
  throws.
Qed.

(** ** Single steps *)

Lemma shuffleStep_stop target st ops :
  mkShuffleOperations (current st) target = Ok ops ->
  allCompatible ops = Ok true ->
  shuffleStep target st = (Ok false, st).
Proof.
  intros Hmk Hstop. unfold shuffleStep, bind, lift, get_current, ret.
  by rewrite Hmk, Hstop.
Qed.

Lemma shuffleStep_empty target st :
  current st = [] -> shuffleStep target st = (Ok false, st).
Proof.
  intros Hnil.
  destruct (mkShuffleOperations_Ok (current st) target) as (ops & Hmk & Hc & _).
  apply (shuffleStep_stop _ _ ops Hmk).
  unfold allCompatible, sourceSize. by rewrite Hc, Hnil.
Qed.

(** C3.  A step that returns [true] called exactly one of the primitives
    [swap], [pop], [pushOrDupTarget], exactly once: the machine it leaves is
    the one that primitive produces from the machine the step started on,
    and exactly one hook call, the one of that primitive, was added to the
    trace.  A step that returns [false] called none: the machine, hence the
    trace, is unchanged. *)
Theorem shuffleStep_one_primitive (target : Stack) (st st' : Machine) (b : bool) :
  shuffleStep target st = (Ok b, st') ->
  if b then
    exists p, emitted st' = emitted st ++ [p] ∧
      ((exists d, p = SwapCall (to_unsigned d) ∧ swap d st = (Ok tt, st')) ∨
       (p = PopCall ∧ pop st = (Ok tt, st')) ∨
       (exists ops offset slot,
          p = PushOrDupCall slot ∧
          mkShuffleOperations (current st) target = Ok ops ∧
          pushOrDupTarget ops offset st = (Ok tt, st')))
  else st' = st.
Proof.
  intros H. apply shuffleStep_shape in H.
  inversion H as [ops Hmk Hstop| |ops Hmk Hstop Hsurplus
                 |ops offset r st1 Hmk Hstop Hlt Hne Hswap Hr
                 |ops o offset slot Hmk Hstop Hsearch Hat]; subst.
  - done.
  - exists PopCall. split; [done|]. right; left. by rewrite pop_popped.
  - destruct r as [[]|e]; simpl in Hr; [|discriminate]. injection Hr as <-.
    pose proof (swap_emitted _ _ _ _ Hswap) as [Hem _].
    eexists. split; [exact Hem|]. left. eauto.
  - exists (PushOrDupCall slot). split; [done|]. right; right.
    exists ops, offset, slot. repeat split; [done|].
    unfold pushOrDupTarget, bind, lift. by rewrite Hat.
Qed.

Lemma shuffleStep_one_primitive_witness :
  exists p, [SwapCall 1] = [] ++ [p] ∧
    ((exists d, p = SwapCall (to_unsigned d) ∧
        swap d {| current := [VariableSlot 0; VariableSlot 1]; emitted := [] |}
        = (Ok tt, {| current := [VariableSlot 1; VariableSlot 0]; emitted := [SwapCall 1] |})) ∨
     (p = PopCall ∧
        pop {| current := [VariableSlot 0; VariableSlot 1]; emitted := [] |}
        = (Ok tt, {| current := [VariableSlot 1; VariableSlot 0]; emitted := [SwapCall 1] |})) ∨
     (exists ops offset slot,
        p = PushOrDupCall slot ∧
        mkShuffleOperations [VariableSlot 0; VariableSlot 1] [VariableSlot 1; VariableSlot 0] = Ok ops ∧
        pushOrDupTarget ops offset {| current := [VariableSlot 0; VariableSlot 1]; emitted := [] |}
        = (Ok tt, {| current := [VariableSlot 1; VariableSlot 0]; emitted := [SwapCall 1] |}))).
Proof.
  apply (shuffleStep_one_primitive [VariableSlot 1; VariableSlot 0]
           {| current := [VariableSlot 0; VariableSlot 1]; emitted := [] |}
           {| current := [VariableSlot 1; VariableSlot 0]; emitted := [SwapCall 1] |} true).
  vm_compute. reflexivity.
Defined.

(** C6.  When the stop predicate fails, the multiplicity of the slot at the
    top of the source is negative, and it is not the case that the target is
    at least as long as the source with an arbitrary slot at the position of
    the top, the step calls [pop] once, which removes the top of the current
    stack, calls nothing else, and returns [true]. *)
Theorem drop_surplus_top (target : Stack) (st : Machine) (ops : ShuffleOperations) (m : Z) :
  mkShuffleOperations (current st) target = Ok ops ->
  allCompatible ops = Ok false ->
  sourceMultiplicity ops (sourceTop ops) = Ok m ->
  (m < 0)%Z ->
  ¬ (sourceSize ops <= targetSize ops ∧ targetIsArbitrary ops (sourceTop ops) = Ok true) ->
  shuffleStep target st =
  (Ok true, {| current := removelast (current st); emitted := emitted st ++ [PopCall] |}).
Proof.
  intros Hmk Hstop Hm Hneg Hnot.
  assert (Hsurplus : surplusTop ops = Ok true).
  { unfold surplusTop. rewrite Hm. cbn [bindR andR].
    replace (m <? 0)%Z with true by (symmetry; apply Z.ltb_lt; lia).
    rewrite targetIsArbitrary_value in *.
    destruct (N.leb_spec (sourceSize ops) (targetSize ops)) as [Hle|Hlt]; [|done].
    cbn. destruct (targetStack ops !! N.to_nat (sourceTop ops)) as [slot|]; [|done].
    destruct (holds_JunkSlot slot); [|done]. exfalso. by apply Hnot. }
  unfold shuffleStep, bind, lift, get_current, ret.
  by rewrite Hmk, Hstop, Hsurplus.
Qed.

Lemma drop_surplus_top_witness :
  shuffleStep [VariableSlot 0]
    {| current := [VariableSlot 0; VariableSlot 1]; emitted := [] |} =
  (Ok true, {| current := [VariableSlot 0]; emitted := [PopCall] |}).
Proof.
  refine (drop_surplus_top [VariableSlot 0]
            {| current := [VariableSlot 0; VariableSlot 1]; emitted := [] |}
            {| currentStack := [VariableSlot 0; VariableSlot 1];
               targetStack := [VariableSlot 0];
               multiplicity := <[VariableSlot 0 := 0%Z]> (<[VariableSlot 1 := (-1)%Z]> ∅) |}
            (-1)%Z _ _ _ _ _).
  - vm_compute. reflexivity.
  - vm_compute. reflexivity.
  - vm_compute. reflexivity.
  - lia.
  - intros [Hle _]. vm_compute in Hle. apply Hle. reflexivity.
Defined.

(** C10.  A step that does anything but return [false] (or that called a
    hook) started on a non-empty current stack, the stop predicate holding
    vacuously of the empty stack; so [sourceSize - 1] did not wrap around
    when [sourceTop] was computed: on a stack of a size that [size_t] holds
    it is the index just below [sourceSize]. *)
Theorem past_stop_check_nonempty (target : Stack) (st st' : Machine) (r : Res bool) :
  shuffleStep target st = (r, st') ->
  r ≠ Ok false ∨ emitted st' ≠ emitted st ->
  1 <= vsize (current st) ∧
  (vsize (current st) < size_t_modulus ->
   usub (vsize (current st)) 1 + 1 = vsize (current st)).
Proof.
  intros Hstep Hpast.
  assert (Hne : 1 <= vsize (current st)).
  { destruct (current st) as [|slot c] eqn:Hc; [|unfold vsize; simpl; lia].
    rewrite (shuffleStep_empty target st Hc) in Hstep. injection Hstep as <- <-.
    by destruct Hpast. }
  split; [done|]. intros Hbound. rewrite usub_no_wrap by done. lia.
Qed.

Lemma past_stop_check_nonempty_witness :
  1 <= vsize [VariableSlot 0; VariableSlot 1] ∧
  (vsize [VariableSlot 0; VariableSlot 1] < size_t_modulus ->
   usub (vsize [VariableSlot 0; VariableSlot 1]) 1 + 1 = vsize [VariableSlot 0; VariableSlot 1]).
Proof.
  refine (past_stop_check_nonempty [VariableSlot 1; VariableSlot 0]
            {| current := [VariableSlot 0; VariableSlot 1]; emitted := [] |}
            {| current := [VariableSlot 1; VariableSlot 0]; emitted := [SwapCall 1] |}
            (Ok true) _ _).
  - vm_compute. reflexivity.
  - left. discriminate.
Defined.

(** ** The loops of [createStackLayout] and [bringUpTargetSlot], unfolded *)

Lemma pushRemaining_body target st :
  pushRemaining target st =
  if vsize (current st) <? vsize target then
    match at_ target (vsize (current st)) with
    | Ok slot => pushRemaining target (pushed slot st)
    | Err e => (Err e, st)
    end
  else (Ok tt, st).
Proof.
  funelim (pushRemaining target st);
    repeat match goal with
      | H : (_ <? _) = _ |- _ => rewrite H
      | H : at_ _ _ = _ |- _ => rewrite H
      end; done.
Qed.

Lemma bringUpSearch_nil ops visited :
  bringUpSearch ops [] visited = Err (YulAssertion "").
Proof. by simp bringUpSearch. Qed.

Lemma bringUpSearch_body ops offset rest visited :
  bringUpSearch ops (offset :: rest) visited =
  let* m := targetMultiplicity ops offset in
  if (0 <? m)%Z then Ok offset
  else let* next := queued ops offset ({[offset]} ∪ visited) in
       bringUpSearch ops (rest ++ next) ({[offset]} ∪ visited).
Proof.
  funelim (bringUpSearch ops (offset :: rest) visited);
    repeat match goal with
      | H : targetMultiplicity _ _ = _ |- _ => rewrite H; cbn [bindR]
      | H : (0 <? _)%Z = _ |- _ => rewrite H
      | H : queued _ _ _ = _ |- _ => rewrite H; cbn [bindR]
      end; done.
Qed.

(** ** The loop of [shuffle] *)

Lemma shuffleStep_true_emitted target st st' :
  shuffleStep target st = (Ok true, st') -> exists p, emitted st' = emitted st ++ [p].
Proof.
  intros H. apply shuffleStep_shape in H.
  inversion H as [| | |ops offset r st1 Hmk Hstop Hlt Hne Hswap Hr|]; subst; simpl; eauto.
  apply swap_emitted in Hswap as [-> _]. eauto.
Qed.

Lemma trueSteps_emitted target k st st' :
  trueSteps target k st st' ->
  exists new, emitted st' = emitted st ++ new ∧ length new = k.
Proof.
  induction 1 as [st|k st st1 st2 Hstep _ (new & Hnew & Hlen)].
  - exists []. by rewrite app_nil_r.
  - apply shuffleStep_true_emitted in Hstep as [p Hp].
    exists (p :: new). rewrite Hnew, Hp, <- app_assoc. simpl. by rewrite Hlen.
Qed.

Lemma trueSteps_deterministic target k st st1 st2 :
  trueSteps target k st st1 -> trueSteps target k st st2 -> st1 = st2.
Proof.
  intros H1. revert st2. induction H1 as [st|k st sta stb Hstep _ IH]; intros st2 H2.
  - by inversion H2.
  - inversion H2 as [|k' st' sta' stb' Hstep' Hrest]; subst.
    rewrite Hstep in Hstep'. injection Hstep' as <-. by apply IH.
Qed.

Lemma trueSteps_prefix target j k st sta stb :
  trueSteps target j st sta -> trueSteps target k st stb -> (j < k)%nat ->
  exists stc, shuffleStep target sta = (Ok true, stc).
Proof.
  intros Hj. revert k stb.
  induction Hj as [s|j s s1 s2 Hstep _ IH]; intros k stb Hk Hlt.
  - inversion Hk; subst; [lia|eauto].
  - inversion Hk as [|k' s' s1' s2' Hstep' Hrest]; subst; [lia|].
    rewrite Hstep in Hstep'. injection Hstep' as <-.
    apply (IH k' stb Hrest). lia.
Qed.

Lemma shuffleLoop_inv target n b st r st' :
  shuffleLoop target n b st = (r, st') ->
  exists k stk, (k <= n)%nat ∧ trueSteps target k st stk ∧
    ((k = n ∧ r = Ok (match n with O => b | S _ => true end) ∧ st' = stk) ∨
     ((k < n)%nat ∧ shuffleStep target stk = (Ok false, st') ∧ r = Ok false) ∨
     ((k < n)%nat ∧ exists e, shuffleStep target stk = (Err e, st') ∧ r = Err e)).
Proof.
  revert b st. induction n as [|n IH]; intros b st; cbn [shuffleLoop].
  - intros [= <- <-]. exists 0%nat, st. split; [lia|]. split; [constructor|]. by left.
  - unfold bind. destruct (shuffleStep target st) as [[[]|e] st1] eqn:Hstep.
    + intros Hloop. apply IH in Hloop as (k & stk & Hk & Hsteps & Hcases).
      exists (S k), stk. split; [lia|]. split; [by econstructor|].
      destruct Hcases as [(-> & -> & ->)|[(Hlt & Hstop & ->)|(Hlt & e & Hthrow & ->)]].
      * left. by destruct n.
      * right; left. split; [lia|done].
      * right; right. split; [lia|eauto].
    + intros [= <- <-]. exists 0%nat, st. split; [lia|]. split; [constructor|].
      right; left. split; [lia|done].
    + intros [= <- <-]. exists 0%nat, st. split; [lia|]. split; [constructor|].
      right; right. split; [lia|eauto].
Qed.

Lemma shuffle_inv target st r st' :
  shuffle target st = (r, st') ->
  exists k stk, (k <= 1000)%nat ∧ trueSteps target k st stk ∧
    ((k = 1000%nat ∧ r = Err nonTermination ∧ st' = stk) ∨
     ((k < 1000)%nat ∧ shuffleStep target stk = (Ok false, st') ∧ r = Ok tt) ∨
     ((k < 1000)%nat ∧ exists e, shuffleStep target stk = (Err e, st') ∧ r = Err e)).
Proof.
  unfold shuffle, bind.
  destruct (shuffleLoop target 1000 true st) as [r0 st0] eqn:Hloop.
  apply shuffleLoop_inv in Hloop as (k & stk & Hk & Hsteps & Hcases).
  intros H. exists k, stk. split; [done|]. split; [done|].
  destruct Hcases as [(-> & -> & ->)|[(Hlt & Hstop & ->)|(Hlt & e & Hthrow & ->)]].
  - left. change (Ok (match 1000%nat with O => true | S _ => true end)) with (Ok true) in H.
    cbv beta iota in H. injection H as <- <-. done.
  - right; left. injection H as <- <-. done.
  - right; right. injection H as <- <-. eauto.
Qed.

(** C2.  [shuffle] runs at most 1000 steps that return [true], each of which
    changes the machine by one primitive.  When the first 1000 steps all
    return [true], it fails with the assertion "Could not create stack
    layout after 1000 iterations." (the stop predicate is not evaluated
    again); when one of the first 1000 steps returns [false], it returns
    normally, in the machine that step left.  Every run is one of these, or
    passes on the exception that one of the first 1000 steps threw. *)
Theorem shuffle_step_cap (target : Stack) (st : Machine) :
  (∀ stk, trueSteps target 1000 st stk ->
          shuffle target st = (Err nonTermination, stk)) ∧
  (∀ k stk st', (k < 1000)%nat -> trueSteps target k st stk ->
                shuffleStep target stk = (Ok false, st') ->
                shuffle target st = (Ok tt, st')) ∧
  (∀ r st', shuffle target st = (r, st') ->
     exists k stk new,
       (k <= 1000)%nat ∧ trueSteps target k st stk ∧
       emitted stk = emitted st ++ new ∧ length new = k ∧
       ((k = 1000%nat ∧ r = Err nonTermination ∧ st' = stk) ∨
        ((k < 1000)%nat ∧ shuffleStep target stk = (Ok false, st') ∧ r = Ok tt) ∨
        ((k < 1000)%nat ∧ exists e, shuffleStep target stk = (Err e, st') ∧ r = Err e))).
Proof.
  assert (Hinv : ∀ r st', shuffle target st = (r, st') ->
     exists k stk new,
       (k <= 1000)%nat ∧ trueSteps target k st stk ∧
       emitted stk = emitted st ++ new ∧ length new = k ∧
       ((k = 1000%nat ∧ r = Err nonTermination ∧ st' = stk) ∨
        ((k < 1000)%nat ∧ shuffleStep target stk = (Ok false, st') ∧ r = Ok tt) ∨
        ((k < 1000)%nat ∧ exists e, shuffleStep target stk = (Err e, st') ∧ r = Err e))).
  { intros r st' H. apply shuffle_inv in H as (k & stk & Hk & Hsteps & Hcases).
    destruct (trueSteps_emitted _ _ _ _ Hsteps) as (new & Hnew & Hlen).
    exists k, stk, new. auto. }
  pose proof (λ j k, trueSteps_prefix target j k st) as Hcut.
  split; [|split; [|exact Hinv]].
  - intros stk Hsteps. destruct (shuffle target st) as [r st'] eqn:Hrun.
    destruct (Hinv r st' eq_refl) as (k & stk' & new & Hk & Hsteps' & _ & _ & Hcases).
    destruct Hcases as [(-> & -> & ->)|[(Hlt & Hstop & _)|(Hlt & e & Hthrow & _)]].
    + by rewrite (trueSteps_deterministic _ _ _ _ _ Hsteps Hsteps').
    + destruct (Hcut _ _ _ _ Hsteps' Hsteps Hlt) as [stc Hstc]. congruence.
    + destruct (Hcut _ _ _ _ Hsteps' Hsteps Hlt) as [stc Hstc]. congruence.
  - intros k stk st' Hlt Hsteps Hstop. destruct (shuffle target st) as [r st''] eqn:Hrun.
    destruct (Hinv r st'' eq_refl) as (k' & stk' & new & Hk & Hsteps' & _ & _ & Hcases).
    destruct (Nat.lt_trichotomy k k') as [Hkk|[->|Hkk]].
    + destruct (Hcut _ _ _ _ Hsteps Hsteps' Hkk) as [stc Hstc]. congruence.
    + rewrite (trueSteps_deterministic _ _ _ _ _ Hsteps' Hsteps) in Hcases.
      destruct Hcases as [(-> & _)|[(_ & Hstop' & ->)|(_ & e & Hthrow & _)]];
        [lia| |congruence].
      rewrite Hstop in Hstop'. by injection Hstop' as <-.
    + destruct Hcases as [(-> & _)|[(_ & Hstop' & _)|(_ & e & Hthrow & _)]]; [lia| |].
      * destruct (Hcut _ _ _ _ Hsteps' Hsteps Hkk) as [stc Hstc]. congruence.
      * destruct (Hcut _ _ _ _ Hsteps' Hsteps Hkk) as [stc Hstc]. congruence.
Qed.

(** ** [createStackLayout] *)

Lemma normalizeJunk_Ok cur target cur' :
  length cur = length target ->
  normalizeJunk cur target = (Ok tt, cur') -> cur' = target.
Proof.
  revert target cur'. induction cur as [|c cur IH]; intros [|t target] cur' Hlen;
    simpl in *; try discriminate.
  - by intros [= <-].
  - destruct (holds_JunkSlot t) eqn:Hjunk.
    + destruct (normalizeJunk cur target) as [r cur''] eqn:Hrest.
      intros [= -> <-]. apply holds_JunkSlot_eq in Hjunk as ->.
      f_equal. apply IH; [lia|done].
    + destruct (slot_eqb c t) eqn:Heq; [|discriminate].
      destruct (normalizeJunk cur target) as [r cur''] eqn:Hrest.
      intros [= -> <-]. apply slot_eqb_eq in Heq as ->.
      f_equal. apply IH; [lia|done].
Qed.

Lemma normalizeJunk_same target : normalizeJunk target target = (Ok tt, target).
Proof.
  induction target as [|t target IH]; simpl; [done|]. rewrite IH.
  destruct (holds_JunkSlot t) eqn:Hjunk.
  - by apply holds_JunkSlot_eq in Hjunk as ->.
  - by rewrite (proj2 (slot_eqb_eq t t) eq_refl).
Qed.

(** On normal return the current stack is the target stack itself: the
    junk positions were overwritten with [JunkSlot], which is what the
    target holds there, and the others were checked to be identical. *)
Lemma createStackLayout_Ok target st st' :
  createStackLayout target st = (Ok tt, st') -> current st' = target.
Proof.
  unfold createStackLayout, bind, get_current, yulAssert, lift, assertR, normalize.
  destruct (shuffle target st) as [[[]|e] st1]; [|discriminate].
  destruct (pushRemaining target st1) as [[[]|e] st2]; [|discriminate].
  destruct (N.eqb_spec (vsize (current st2)) (vsize target)) as [Hsize|]; [|discriminate].
  assert (Hlen : length (current st2) = length target) by (unfold vsize in Hsize; lia).
  destruct (normalizeJunk (current st2) target) as [r cur'] eqn:Hnorm.
  intros [= -> <-]. simpl. by apply (normalizeJunk_Ok _ _ _ Hlen).
Qed.

(** C1.  When [createStackLayout] returns normally, the current stack it
    leaves has the length of the target, and at every index it holds
    [JunkSlot] where the target slot is junk and a slot identical to the
    target slot everywhere else. *)
Theorem createStackLayout_result (target : Stack) (st st' : Machine) :
  createStackLayout target st = (Ok tt, st') ->
  length (current st') = length target ∧
  ∀ (i : nat) (slot : StackSlot),
    target !! i = Some slot ->
    current st' !! i = Some (if holds_JunkSlot slot then JunkSlot else slot).
Proof.
  intros H. apply createStackLayout_Ok in H. rewrite H. split; [done|].
  intros i slot Hslot. rewrite Hslot. f_equal.
  destruct (holds_JunkSlot slot) eqn:Hjunk; [|done]. by apply holds_JunkSlot_eq.
Qed.

Lemma createStackLayout_result_witness :
  length [JunkSlot; VariableSlot 0] = length [JunkSlot; VariableSlot 0] ∧
  ∀ (i : nat) (slot : StackSlot),
    [JunkSlot; VariableSlot 0] !! i = Some slot ->
    [JunkSlot; VariableSlot 0] !! i = Some (if holds_JunkSlot slot then JunkSlot else slot).
Proof.
  apply (createStackLayout_result [JunkSlot; VariableSlot 0]
           {| current := [VariableSlot 0]; emitted := [] |}
           {| current := [JunkSlot; VariableSlot 0];
              emitted := [PushOrDupCall (VariableSlot 0)] |}).
  vm_compute. reflexivity.
Defined.

Lemma allCompatible_same ops :
  currentStack ops = targetStack ops -> allCompatible ops = Ok true.
Proof.
  intros Hsame. apply all_of_true. intros i Hi%elem_of_iota.
  rewrite isCompatible_compatible. f_equal. apply compatible_true.
  destruct (at_in_range _ _ Hi) as [x Hx%at_Ok].
  exists x, x. rewrite <- Hsame. auto.
Qed.

Lemma shuffle_same target st :
  current st = target -> shuffle target st = (Ok tt, st).
Proof.
  intros Hsame. unfold shuffle, bind.
  change 1000%nat with (S 999). cbn [shuffleLoop]. unfold bind.
  destruct (mkShuffleOperations_Ok (current st) target) as (ops & Hmk & Hc & Ht & _).
  rewrite (shuffleStep_stop target st ops Hmk); [done|].
  apply allCompatible_same. congruence.
Qed.

(** C7.  If [createStackLayout] returns normally and leaves the stack
    [current'], then calling it again on [current'] with the same target,
    whatever the hooks recorded before, returns normally, calls no hook (the
    trace is unchanged) and leaves [current'] as it is. *)
Theorem createStackLayout_idempotent (target : Stack) (st st' : Machine) (trace : list Primitive) :
  createStackLayout target st = (Ok tt, st') ->
  createStackLayout target {| current := current st'; emitted := trace |} =
  (Ok tt, {| current := current st'; emitted := trace |}).
Proof.
  intros H. apply createStackLayout_Ok in H. rewrite H.
  unfold createStackLayout, bind.
  rewrite shuffle_same by done. rewrite pushRemaining_body. simpl.
  rewrite N.ltb_irrefl. unfold get_current, yulAssert, lift, assertR, normalize. simpl.
  rewrite N.eqb_refl. by rewrite normalizeJunk_same.
Qed.

Lemma createStackLayout_idempotent_witness :
  createStackLayout [JunkSlot; VariableSlot 0]
    {| current := [JunkSlot; VariableSlot 0]; emitted := [] |} =
  (Ok tt, {| current := [JunkSlot; VariableSlot 0]; emitted := [] |}).
Proof.
  apply (createStackLayout_idempotent [JunkSlot; VariableSlot 0]
           {| current := [VariableSlot 0]; emitted := [] |}
           {| current := [JunkSlot; VariableSlot 0];
              emitted := [PushOrDupCall (VariableSlot 0)] |} []).
  vm_compute. reflexivity.
Defined.

(** ** Swap depths *)

Lemma mkShuffleOperations_fields current target ops :
  mkShuffleOperations current target = Ok ops ->
  currentStack ops = current ∧ targetStack ops = target.
Proof.
  destruct (mkShuffleOperations_Ok current target) as (ops' & -> & Hc & Ht & _).
  by intros [= <-].
Qed.

Lemma vsize_removelast (c : Stack) : vsize (removelast c) <= vsize c.
Proof.
  unfold vsize. rewrite removelast_firstn_len, length_take. lia.
Qed.

(** The depth passed to [swap] by a step that found [offset] below the top. *)
Lemma swap_depth n offset :
  n < 2 ^ 32 -> offset < n -> offset ≠ usub n 1 ->
  1 <= to_unsigned (usub (usub n offset) 1) ∧
  to_unsigned (usub (usub n offset) 1) = n - offset - 1.
Proof.
  intros Hn Hlt Hne.
  assert (Hmod : n < size_t_modulus) by (unfold size_t_modulus; lia).
  rewrite usub_no_wrap in Hne by (done || lia).
  rewrite (usub_no_wrap n offset) by (done || lia).
  rewrite usub_no_wrap by lia.
  unfold to_unsigned. rewrite N.mod_small by lia. lia.
Qed.

Lemma StepShape_swaps target st r st' :
  vsize (current st) < 2 ^ 32 ->
  StepShape target st r st' ->
  vsize (current st') <= vsize (current st) + 1 ∧
  exists new, emitted st' = emitted st ++ new ∧ ∀ d, SwapCall d ∈ new -> 1 <= d.
Proof.
  intros Hbound H.
  inversion H as [ops Hmk Hstop|e|ops Hmk Hstop Hsurplus
                 |ops offset r0 st1 Hmk Hstop Hlt Hne Hswap Hr
                 |ops o offset slot Hmk Hstop Hsearch Hat]; subst.
  - split; [lia|]. exists []. rewrite app_nil_r. split; [done|]. intros d Hd. inversion Hd.
  - split; [lia|]. exists []. rewrite app_nil_r. split; [done|]. intros d Hd. inversion Hd.
  - split; [simpl; pose proof (vsize_removelast (current st)); lia|].
    exists [PopCall]. split; [done|]. intros d Hd.
    apply list_elem_of_singleton in Hd. discriminate.
  - apply mkShuffleOperations_fields in Hmk as [Hc _].
    unfold sourceTop, sourceSize in *. rewrite Hc in *.
    apply swap_emitted in Hswap as [Hem Hlen].
    split; [unfold vsize; lia|].
    eexists. split; [exact Hem|]. intros d Hd.
    apply list_elem_of_singleton in Hd. injection Hd as ->.
    by apply swap_depth.
  - split; [unfold vsize; simpl; rewrite length_app; simpl; lia|].
    exists [PushOrDupCall slot]. split; [done|]. intros d Hd.
    apply list_elem_of_singleton in Hd. discriminate.
Qed.

Lemma shuffleLoop_swaps target n b st r st' :
  vsize (current st) + N.of_nat n < 2 ^ 32 ->
  shuffleLoop target n b st = (r, st') ->
  exists new, emitted st' = emitted st ++ new ∧ ∀ d, SwapCall d ∈ new -> 1 <= d.
Proof.
  revert b st. induction n as [|n IH]; intros b st Hbound; cbn [shuffleLoop].
  - intros [= <- <-]. exists []. rewrite app_nil_r. split; [done|]. intros d Hd. inversion Hd.
  - unfold bind. destruct (shuffleStep target st) as [r1 st1] eqn:Hstep.
    apply shuffleStep_shape, StepShape_swaps in Hstep as (Hsize & new1 & Hnew1 & Hd1); [|lia].
    assert (Hhere : (r1, st1) = (r, st') ->
              exists new, emitted st' = emitted st ++ new ∧ ∀ d, SwapCall d ∈ new -> 1 <= d).
    { intros [= <- <-]. eauto. }
    destruct r1 as [[]|e]; [|exact Hhere|exact Hhere].
    intros Hloop. apply IH in Hloop as (new2 & Hnew2 & Hd2); [|lia].
    exists (new1 ++ new2). rewrite Hnew2, Hnew1, app_assoc. split; [done|].
    intros d [Hd|Hd]%elem_of_app; auto.
Qed.

Lemma pushRemaining_emitted target st :
  exists new, emitted (pushRemaining target st).2 = emitted st ++ new ∧
              ∀ d, SwapCall d ∉ new.
Proof.
  funelim (pushRemaining target st).
  - exists []. rewrite app_nil_r. split; [done|]. intros d Hd. inversion Hd.
  - match goal with IH : exists _, _ |- _ => destruct IH as (new & Hnew & Hnone) end.
    rewrite Hnew. simpl.
    exists (PushOrDupCall slot :: new). rewrite <- app_assoc. split; [done|].
    intros d [Hhead|Htail]%elem_of_cons; [discriminate|by apply (Hnone d)].
  - exists []. rewrite app_nil_r. split; [done|]. intros d Hd. inversion Hd.
Qed.

(** C8.  On stacks of a size the machine can address (the current stack
    holds fewer than [2^32 - 1000] slots, so that no size computed during
    the 1000 steps leaves the range of [unsigned]), every call of the swap
    hook made by [createStackLayout], whether it returns or throws, passes a
    depth of at least 1. *)
Theorem swap_depth_positive (target : Stack) (st st' : Machine) (r : Res unit) :
  vsize (current st) + 1000 < 2 ^ 32 ->
  createStackLayout target st = (r, st') ->
  exists new, emitted st' = emitted st ++ new ∧ ∀ d, SwapCall d ∈ new -> 1 <= d.
Proof.
  intros Hbound. unfold createStackLayout, shuffle, bind.
  destruct (shuffleLoop target 1000 true st) as [r1 st1] eqn:Hloop.
  apply shuffleLoop_swaps in Hloop as (new1 & Hnew1 & Hd1); [|lia].
  assert (Hhere : ∀ e, (Err e : Res unit, st1) = (r, st') ->
            exists new, emitted st' = emitted st ++ new ∧ ∀ d, SwapCall d ∈ new -> 1 <= d).
  { intros e [= <- <-]. eauto. }
  destruct r1 as [more|e]; [|apply Hhere].
  unfold yulAssert, lift, assertR. destruct (negb more); [|apply Hhere].
  destruct (pushRemaining_emitted target st1) as (new2 & Hnew2 & Hd2).
  destruct (pushRemaining target st1) as [r2 st2]. simpl in Hnew2.
  assert (Hthere : ∀ r0 c, (r0 : Res unit, {| current := c; emitted := emitted st2 |}) = (r, st') ->
            exists new, emitted st' = emitted st ++ new ∧ ∀ d, SwapCall d ∈ new -> 1 <= d).
  { intros r0 c [= <- <-]. simpl. exists (new1 ++ new2).
    rewrite Hnew2, Hnew1, app_assoc. split; [done|].
    intros d [Hd|Hd]%elem_of_app; [auto|]. by apply Hd2 in Hd. }
  destruct st2 as [c2 em2]. simpl in *.
  destruct r2 as [[]|e]; [|apply (Hthere (Err e) c2)].
  unfold get_current. simpl.
  destruct (vsize c2 =? vsize target); [|apply (Hthere _ c2)].
  unfold normalize. simpl. destruct (normalizeJunk c2 target) as [r3 c3]. apply Hthere.
Qed.

Lemma swap_depth_positive_witness :
  exists new, [SwapCall 2; PopCall; PopCall] = [] ++ new ∧ ∀ d, SwapCall d ∈ new -> 1 <= d.
Proof.
  refine (swap_depth_positive [VariableSlot 2]
            {| current := [VariableSlot 0; VariableSlot 1; VariableSlot 2]; emitted := [] |}
            {| current := [VariableSlot 2]; emitted := [SwapCall 2; PopCall; PopCall] |}
            (Ok tt) _ _).
  - vm_compute. reflexivity.
  - vm_compute. reflexivity.
Defined.

(** ** Counting occurrences position by position *)

Lemma lookup_iota n p : (p < N.to_nat n)%nat -> iota n !! p = Some (N.of_nat p).
Proof.
  intros Hp. unfold iota. rewrite list_lookup_fmap, lookup_seq_lt by done. done.
Qed.

Lemma lookup_enumerate {A} (v : list A) p :
  enumerate v !! p = (λ x, (N.of_nat p, x)) <$> v !! p.
Proof.
  unfold enumerate. rewrite lookup_zip_with.
  destruct (v !! p) as [x|] eqn:Hx.
  - rewrite lookup_iota; [done|]. apply lookup_lt_Some in Hx. unfold vsize. lia.
  - by destruct (iota (vsize v) !! p).
Qed.

Lemma length_enumerate {A} (v : list A) : length (enumerate v) = length v.
Proof.
  unfold enumerate. rewrite length_zip_with, length_iota. unfold vsize. lia.
Qed.

Lemma lookup_occurrences current target p :
  occurrences current target !! p
  = (λ slot, occurrence current (N.of_nat p, slot)) <$> target !! p.
Proof.
  unfold occurrences. rewrite list_lookup_fmap, lookup_enumerate.
  by destruct (target !! p).
Qed.

Lemma length_occurrences current target :
  length (occurrences current target) = length target.
Proof. unfold occurrences. by rewrite length_fmap, length_enumerate. Qed.

Lemma count_le_pointwise x l1 l2 :
  Forall2 (λ a b, a = x -> b = x) l1 l2 -> (count x l1 <= count x l2)%Z.
Proof.
  induction 1 as [|a b l1 l2 Hab _ IH]; [done|].
  rewrite !count_cons. destruct (decide (a = x)) as [Ha|Ha].
  - rewrite decide_True by auto. lia.
  - destruct (decide (b = x)); lia.
Qed.

Lemma count_take_drop x k l : count x l = (count x (take k l) + count x (drop k l))%Z.
Proof. by rewrite <- count_app, take_drop. Qed.

(** ** The offsets handed to [bringUpTargetSlot]: ranges *)

Lemma shuffleStep_bringUp target st ops _targetOffset :
  mkShuffleOperations (current st) target = Ok ops ->
  bringUpArgument ops _targetOffset ->
  shuffleStep target st = (do _ <- bringUpTargetSlot ops _targetOffset; ret true) st.
Proof.
  intros Hmk Harg. unfold shuffleStep, bind, lift, get_current, yulAssert, ret.
  rewrite Hmk.
  destruct Harg as [offset Hstop Hsurplus Hpos Hhome Hlower
                   |Hstop Hsurplus Hpos Hhome Hlower Hkeep Hwants Hgrow].
  - by rewrite Hstop, Hsurplus, Hpos, Hhome, Hlower.
  - by rewrite Hstop, Hsurplus, Hpos, Hhome, Hlower, Hkeep, Hwants, Hgrow.
Qed.

Lemma worklistStep_bringUpSearch ops toVisit visited toVisit' visited' :
  worklistStep ops (toVisit, visited) (toVisit', visited') ->
  bringUpSearch ops toVisit visited = bringUpSearch ops toVisit' visited'.
Proof.
  inversion 1 as [offset rest v m next Hm Hneg Hnext]; subst.
  rewrite bringUpSearch_body, Hm. cbn [bindR]. by rewrite Hneg, Hnext.
Qed.

Lemma queued_in_range ops offset visited next i :
  queued ops offset visited = Ok next -> i ∈ next -> i < targetSize ops.
Proof.
  unfold queued. intros Hnext Hi. apply (collect_spec _ _ _ Hnext) in Hi as [Hi _].
  apply elem_of_iota in Hi. lia.
Qed.

Lemma worklist_in_range ops _targetOffset toVisit visited :
  _targetOffset < targetSize ops ->
  rtc (worklistStep ops) ([_targetOffset], ∅) (toVisit, visited) ->
  ∀ offset, offset ∈ toVisit -> offset < targetSize ops.
Proof.
  intros Hstart Hreach.
  change toVisit with (toVisit, visited).1.
  revert Hreach. generalize (toVisit, visited).
  apply (rtc_ind_r (λ state, ∀ offset, offset ∈ state.1 -> offset < targetSize ops)).
  - simpl. intros offset Hin. apply list_elem_of_singleton in Hin. by subst.
  - intros before after _ Hstep IH.
    inversion Hstep as [offset rest v m next Hm Hneg Hnext]; subst. simpl in *.
    intros i [Hi|Hi]%elem_of_app.
    + apply IH. by right.
    + by eapply queued_in_range.
Qed.

Lemma bringUpSearch_in_range ops toVisit visited offset :
  (∀ i, i ∈ toVisit -> i < targetSize ops) ->
  bringUpSearch ops toVisit visited = Ok offset ->
  offset < targetSize ops.
Proof.
  funelim (bringUpSearch ops toVisit visited); intros Hrange Hres; try discriminate.
  - injection Hres as <-. apply Hrange. by left.
  - match goal with IH : context [bringUpSearch _ _ _ = Ok _ -> _] |- _ => apply IH end;
      [|done].
    intros i [Hi|Hi]%elem_of_app; [apply Hrange; by right|by eapply queued_in_range].
Qed.

Lemma compatible_beyond_target ops s t :
  targetSize ops <= t -> compatible ops s t = false.
Proof.
  intros Ht. unfold compatible, targetSize, vsize in *.
  rewrite (lookup_ge_None_2 (targetStack ops)) by lia.
  by destruct (currentStack ops !! N.to_nat s).
Qed.

Lemma at_of_nat {A} (v : list A) p x : v !! p = Some x -> at_ v (N.of_nat p) = Ok x.
Proof. intros H. apply at_Ok. by rewrite Nat2N.id. Qed.

(** When the source is longer than the target and no lower position wants
    the slot at the top, the top is surplus: every target position that
    counts as an occurrence of the top slot already holds it. *)
Lemma top_surplus_when_longer ops x mt :
  (∀ y, entry_of (multiplicity ops) y
        = (count y (occurrences (currentStack ops) (targetStack ops))
           - count y (currentStack ops))%Z) ->
  sourceSize ops < size_t_modulus ->
  targetSize ops < sourceSize ops ->
  at_ (currentStack ops) (sourceTop ops) = Ok x ->
  multiplicity ops !! x = Some mt ->
  lowerHome ops = Ok None ->
  (mt < 0)%Z.
Proof.
  intros Htable Hbound Hshort Hx Hmt Hhome.
  assert (Htop : sourceTop ops = sourceSize ops - 1)
    by (unfold sourceTop; apply usub_no_wrap; lia).
  (* no lower position wants the top *)
  unfold lowerHome in Hhome. rewrite isCompatible_compatible in Hhome.
  rewrite compatible_beyond_target in Hhome by lia. cbn in Hhome.
  pose proof (first_of_None _ _ Hhome) as Hnone. clear Hhome.
  assert (Hpoint : ∀ (p : nat) s,
            targetStack ops !! p = Some s ->
            occurrence (currentStack ops) (N.of_nat p, s) = x ->
            currentStack ops !! p = Some x).
  { intros p s Hs Hocc.
    pose proof (lookup_lt_Some _ _ _ Hs) as Hp.
    unfold sourceSize, targetSize, vsize in *.
    destruct (lookup_lt_is_Some_2 (currentStack ops) p) as [cp Hcp]; [lia|].
    specialize (Hnone (N.of_nat p)). rewrite elem_of_iota in Hnone.
    assert (Hin : N.of_nat p < N.of_nat (length (currentStack ops))
                             `min` N.of_nat (length (targetStack ops))) by lia.
    apply Hnone in Hin. clear Hnone. rename Hin into Hnone.
    rewrite !isCompatible_compatible in Hnone. unfold sourceIsSame in Hnone.
    rewrite (at_of_nat _ _ _ Hcp), Hx in Hnone. cbn in Hnone.
    apply at_Ok in Hx. unfold compatible in Hnone.
    rewrite Nat2N.id, Hcp, Hs, Hx in Hnone.
    unfold occurrence, vsize in Hocc. cbn [fst snd] in Hocc.
    destruct (holds_JunkSlot s) eqn:Hjunk.
    - replace (N.of_nat p <? N.of_nat (length (currentStack ops))) with true in Hocc
        by (symmetry; apply N.ltb_lt; lia).
      rewrite Nat2N.id, Hcp in Hocc. simpl in Hocc. by subst.
    - simpl in Hocc. subst s. simpl in Hnone.
      rewrite (proj2 (slot_eqb_eq x x) eq_refl) in Hnone.
      destruct (slot_eqb cp x) eqn:Heq; [|discriminate].
      by apply slot_eqb_eq in Heq as ->. }
  (* count position by position *)
  assert (Hle : (count x (occurrences (currentStack ops) (targetStack ops))
                 <= count x (take (length (targetStack ops)) (currentStack ops)))%Z).
  { apply count_le_pointwise, Forall2_same_length_lookup. split.
    - rewrite length_occurrences, length_take.
      unfold sourceSize, targetSize, vsize in *. lia.
    - intros i a b Ha Hb Hax. rewrite lookup_occurrences in Ha.
      destruct (targetStack ops !! i) as [s|] eqn:Hs; [|discriminate].
      injection Ha as <-. apply lookup_take_Some in Hb as [Hb _].
      rewrite (Hpoint i s Hs Hax) in Hb. by injection Hb. }
  assert (Hdrop : (1 <= count x (drop (length (targetStack ops)) (currentStack ops)))%Z).
  { cut (0 < count x (drop (length (targetStack ops)) (currentStack ops)))%Z; [lia|].
    apply count_pos_elem_of, list_elem_of_lookup.
    exists (N.to_nat (sourceTop ops) - length (targetStack ops))%nat.
    rewrite lookup_drop. apply at_Ok in Hx.
    replace (length (targetStack ops) + (N.to_nat (sourceTop ops) - length (targetStack ops)))%nat
      with (N.to_nat (sourceTop ops)); [done|].
    unfold sourceSize, targetSize, vsize in *. lia. }
  pose proof (Htable x) as Hentry. unfold entry_of in Hentry. rewrite Hmt in Hentry.
  simpl in Hentry.
  rewrite (count_take_drop x (length (targetStack ops)) (currentStack ops)) in Hentry.
  lia.
Qed.

Lemma lowerSurplus_below_target current target ops offset :
  vsize current < size_t_modulus ->
  mkShuffleOperations current target = Ok ops ->
  surplusTop ops = Ok false ->
  lowerHome ops = Ok None ->
  lowerSurplus ops = Ok (Some offset) ->
  offset < targetSize ops.
Proof.
  intros Hbound Hmk Hsurplus Hhome Hlower.
  destruct (mkShuffleOperations_Ok current target) as (ops' & Hmk' & Hc & Ht & Hm & _).
  rewrite Hmk in Hmk'. injection Hmk' as <-. subst current target.
  apply first_of_Some in Hlower as [Hin Hcond]. apply elem_of_iota in Hin.
  apply andR_true in Hcond as [Hcond _]. apply andR_true in Hcond as [_ Hle].
  injection Hle as Hle. apply N.leb_le in Hle.
  destruct (decide (offset < targetSize ops)) as [|Hge]; [done|]. exfalso.
  assert (Hshort : targetSize ops < sourceSize ops) by lia.
  destruct (at_in_range (currentStack ops) (sourceTop ops)) as [x Hx].
  { unfold sourceTop. rewrite usub_no_wrap; unfold sourceSize in *; lia. }
  unfold surplusTop, sourceMultiplicity, multiplicity_at in Hsurplus.
  rewrite Hx in Hsurplus. cbn [bindR] in Hsurplus.
  destruct (multiplicity ops !! x) as [mt|] eqn:Hmt; [|discriminate].
  pose proof (top_surplus_when_longer ops x mt Hm Hbound Hshort Hx Hmt Hhome) as Hneg.
  apply Z.ltb_lt in Hneg. cbn [bindR] in Hsurplus. rewrite Hneg in Hsurplus.
  replace (sourceSize ops <=? targetSize ops) with false in Hsurplus
    by (symmetry; apply N.leb_gt; lia).
  discriminate.
Qed.

(** C9.  On a current stack of a size that [size_t] holds, every offset a
    step calls [bringUpTargetSlot] with is strictly below [targetSize], also
    the one passed under the guard [offset <= targetSize] of line 184; so
    is every offset that is ever in the worklist of the search started
    there, and so is the offset [pushOrDupTarget] is called with.  Hence
    the lookups [targetStack.at(offset)] made for them are in range. *)
Theorem bringUp_offsets_in_range (target : Stack) (st : Machine) (ops : ShuffleOperations)
    (_targetOffset : N) :
  vsize (current st) < size_t_modulus ->
  mkShuffleOperations (current st) target = Ok ops ->
  bringUpArgument ops _targetOffset ->
  _targetOffset < targetSize ops ∧
  (∀ toVisit visited offset,
     rtc (worklistStep ops) ([_targetOffset], ∅) (toVisit, visited) ->
     offset ∈ toVisit ->
     offset < targetSize ops ∧ exists slot, at_ (targetStack ops) offset = Ok slot) ∧
  (∀ offset,
     bringUpSearch ops [_targetOffset] ∅ = Ok offset ->
     offset < targetSize ops ∧ exists slot, at_ (targetStack ops) offset = Ok slot).
Proof.
  intros Hbound Hmk Harg.
  assert (Hstart : _targetOffset < targetSize ops).
  { destruct Harg as [offset Hstop Hsurplus Hpos Hhome Hlower
                     |Hstop Hsurplus Hpos Hhome Hlower Hkeep Hwants Hgrow].
    - by eapply lowerSurplus_below_target.
    - by apply N.ltb_lt. }
  split; [done|]. split.
  - intros toVisit visited offset Hreach Hin.
    pose proof (worklist_in_range _ _ _ _ Hstart Hreach offset Hin) as Hlt.
    split; [done|]. by apply at_in_range.
  - intros offset Hsearch.
    assert (Hlt : offset < targetSize ops).
    { apply (bringUpSearch_in_range _ _ _ _) in Hsearch; [done|].
      intros i Hi. apply list_elem_of_singleton in Hi. by subst. }
    split; [done|]. by apply at_in_range.
Qed.

Lemma bringUp_offsets_in_range_witness :
  1 < targetSize surplus_example ∧
  (∀ toVisit visited offset,
     rtc (worklistStep surplus_example) ([1], ∅) (toVisit, visited) ->
     offset ∈ toVisit ->
     offset < targetSize surplus_example ∧
     exists slot, at_ (targetStack surplus_example) offset = Ok slot) ∧
  (∀ offset,
     bringUpSearch surplus_example [1] ∅ = Ok offset ->
     offset < targetSize surplus_example ∧
     exists slot, at_ (targetStack surplus_example) offset = Ok slot).
Proof.
  refine (bringUp_offsets_in_range
            [VariableSlot 0; VariableSlot 1; VariableSlot 1]
            {| current := [VariableSlot 0; VariableSlot 0; VariableSlot 1]; emitted := [] |}
            surplus_example 1 _ _ _).
  - vm_compute. reflexivity.
  - vm_compute. reflexivity.
  - apply bringUp_lowerSurplus; vm_compute; reflexivity.
Defined.

(** ** The scenarios of the specification *)

Example scenario_S1 :
  run (createStackLayout [VariableSlot 1; VariableSlot 0]) [VariableSlot 0; VariableSlot 1]
  = (Ok tt, {| current := [VariableSlot 1; VariableSlot 0]; emitted := [SwapCall 1] |}).
Proof. vm_compute. reflexivity. Qed.

Example scenario_S2 :
  run (createStackLayout [VariableSlot 0; VariableSlot 0]) [VariableSlot 0]
  = (Ok tt, {| current := [VariableSlot 0; VariableSlot 0];
               emitted := [PushOrDupCall (VariableSlot 0)] |}).
Proof. vm_compute. reflexivity. Qed.

Example scenario_S3 :
  run (createStackLayout [VariableSlot 2]) [VariableSlot 0; VariableSlot 1; VariableSlot 2]
  = (Ok tt, {| current := [VariableSlot 2]; emitted := [SwapCall 2; PopCall; PopCall] |}).
Proof. vm_compute. reflexivity. Qed.

Example scenario_S4 :
  run (createStackLayout [JunkSlot; VariableSlot 0]) [VariableSlot 0]
  = (Ok tt, {| current := [JunkSlot; VariableSlot 0];
               emitted := [PushOrDupCall (VariableSlot 0)] |}).
Proof. vm_compute. reflexivity. Qed.

Example scenario_S5 :
  run (createStackLayout [VariableSlot 1; VariableSlot 0; LiteralSlot 1])
      [VariableSlot 0; VariableSlot 1]
  = (Ok tt, {| current := [VariableSlot 1; VariableSlot 0; LiteralSlot 1];
               emitted := [SwapCall 1; PushOrDupCall (LiteralSlot 1)] |}).
Proof. vm_compute. reflexivity. Qed.

Example scenario_S6 :
  run (createStackLayout [VariableSlot 0; VariableSlot 1; VariableSlot 2])
      [VariableSlot 0; VariableSlot 1; VariableSlot 2]
  = (Ok tt, {| current := [VariableSlot 0; VariableSlot 1; VariableSlot 2]; emitted := [] |}).
Proof. vm_compute. reflexivity. Qed.

(** A run whose second step searches the worklist of [bringUpTargetSlot]
    beyond its first offset: [target[1]] is already on the stack, out of
    position at offset 0, and what belongs there has to be pushed. *)
Example search_follows_worklist :
  run (createStackLayout [VariableSlot 0; VariableSlot 1]) [VariableSlot 1; JunkSlot]
  = (Ok tt, {| current := [VariableSlot 0; VariableSlot 1];
               emitted := [PopCall; PushOrDupCall (VariableSlot 0); SwapCall 1] |}).
Proof. vm_compute. reflexivity. Qed.

(** A step that goes through [bringUpTargetSlot]. *)
Example step_brings_up :
  shuffleStep [VariableSlot 0; VariableSlot 1; VariableSlot 1]
    {| current := [VariableSlot 0; VariableSlot 0; VariableSlot 1]; emitted := [] |}
  = (Ok true,
     {| current := [VariableSlot 0; VariableSlot 0; VariableSlot 1; VariableSlot 1];
        emitted := [PushOrDupCall (VariableSlot 1)] |}).
Proof. vm_compute. reflexivity. Qed.

(** * Further properties of the adapter and of the transformer *)

(** ** The primitives of the adapter *)


Lemma last_lookup_pred (c : Stack) : last c = c !! Nat.pred (length c).
Proof. apply last_lookup. Qed.

Lemma swap_with_back_Ok (c : Stack) i :
  i < vsize c ->
  exists x y, at_ c i = Ok x ∧ last c = Some y ∧
    swap_with_back c i = Ok (<[N.to_nat i := y]> (<[Nat.pred (length c) := x]> c)).
Proof.
  intros Hi. destruct (at_in_range c i Hi) as [x Hx].
  unfold vsize in Hi.
  destruct (lookup_lt_is_Some_2 c (Nat.pred (length c))) as [y Hy]; [lia|].
  exists x, y. rewrite last_lookup_pred. split; [done|]. split; [done|].
  unfold swap_with_back. rewrite Hx. cbn [bindR]. by rewrite last_lookup_pred, Hy.
Qed.

Lemma swap_with_back_involutive (c c' : Stack) i :
  swap_with_back c i = Ok c' -> swap_with_back c' i = Ok c.
Proof.
  unfold swap_with_back. destruct (at_ c i) as [x|] eqn:Hx; [|discriminate].
  cbn [bindR]. rewrite last_lookup_pred.
  destruct (c !! Nat.pred (length c)) as [y|] eqn:Hy; [|discriminate].
  intros [= <-]. apply at_Ok in Hx.
  pose proof (lookup_lt_Some _ _ _ Hx) as Hi.
  set (n := Nat.pred (length c)) in *. set (k := N.to_nat i) in *.
  assert (Hlen : length (<[k:=y]> (<[n:=x]> c)) = length c) by by rewrite !length_insert.
  assert (Hk : (<[k:=y]> (<[n:=x]> c)) !! k = Some y).
  { apply list_lookup_insert_eq. rewrite length_insert. lia. }
  assert (Hn : (<[k:=y]> (<[n:=x]> c)) !! n = Some (if decide (k = n) then y else x)).
  { destruct (decide (k = n)) as [->|Hne]; [done|].
    rewrite list_lookup_insert_ne by done. apply list_lookup_insert_eq. unfold n. lia. }
  unfold at_. fold k. rewrite Hk. cbn [bindR]. rewrite last_lookup_pred, Hlen. fold n.
  rewrite Hn. f_equal. apply list_eq. intros j.
  destruct (decide (j = k)) as [->|Hjk].
  - rewrite list_lookup_insert_eq by (rewrite !length_insert; lia).
    destruct (decide (k = n)) as [->|]; congruence.
  - rewrite list_lookup_insert_ne by done.
    destruct (decide (j = n)) as [->|Hjn].
    + rewrite list_lookup_insert_eq by (rewrite !length_insert; unfold n; lia). done.
    + by rewrite !list_lookup_insert_ne by done.
Qed.



(** X2.  [swap(i)] with [i] below the size of the stack returns normally:
    the hook is called once, the slot [i] positions below the top and the
    top have changed places, every other position and the size are as
    before; and a second [swap(i)] restores the stack. *)
Theorem swap_exchanges (st : Machine) (_i : N) :
  vsize (current st) < size_t_modulus ->
  _i < vsize (current st) ->
  exists c',
    swap _i st =
      (Ok tt, {| current := c'; emitted := emitted st ++ [SwapCall (to_unsigned _i)] |}) ∧
    length c' = length (current st) ∧
    c' !! (length (current st) - 1 - N.to_nat _i)%nat = last (current st) ∧
    last c' = current st !! (length (current st) - 1 - N.to_nat _i)%nat ∧
    (∀ j, j ≠ (length (current st) - 1 - N.to_nat _i)%nat ->
          j ≠ (length (current st) - 1)%nat -> c' !! j = current st !! j) ∧
    ∀ trace, swap _i {| current := c'; emitted := trace |} =
      (Ok tt, {| current := current st; emitted := trace ++ [SwapCall (to_unsigned _i)] |}).
Proof.
  intros Hn Hi.
  assert (Hidx : usub (usub (vsize (current st)) _i) 1 = vsize (current st) - _i - 1).
  { rewrite (usub_no_wrap (vsize (current st)) _i) by lia. apply usub_no_wrap; lia. }
  destruct (swap_with_back_Ok (current st) (vsize (current st) - _i - 1)) as (x & y & Hx & Hy & Hsw);
    [lia|].
  set (k := (length (current st) - 1 - N.to_nat _i)%nat).
  assert (Hk : N.to_nat (vsize (current st) - _i - 1) = k) by (unfold vsize, k in *; lia).
  rewrite Hk in Hsw. apply at_Ok in Hx. rewrite Hk in Hx.
  assert (Hpred : Nat.pred (length (current st)) = (length (current st) - 1)%nat) by lia.
  rewrite Hpred in Hsw.
  assert (Hklt : (k < length (current st))%nat) by (unfold vsize, k in *; lia).
  exists (<[k:=y]> (<[(length (current st) - 1)%nat:=x]> (current st))).
  split; [|split; [|split; [|split; [|split]]]].
  - unfold swap, bind, call_hook, get_current, lift, set_current. cbn.
    by rewrite Hidx, Hsw.
  - by rewrite !length_insert.
  - rewrite Hy. apply list_lookup_insert_eq. by rewrite length_insert.
  - rewrite last_lookup_pred, !length_insert, Hpred, Hx.
    destruct (decide (k = (length (current st) - 1)%nat)) as [Heq|Hne].
    + rewrite <- Heq. rewrite list_lookup_insert_eq by (by rewrite length_insert).
      rewrite last_lookup_pred, Hpred, <- Heq in Hy. congruence.
    + rewrite list_lookup_insert_ne by done. apply list_lookup_insert_eq. lia.
  - intros j Hj1 Hj2. by rewrite !list_lookup_insert_ne by done.
  - intros trace. unfold swap, bind, call_hook, get_current, lift, set_current. cbn.
    unfold vsize at 1. rewrite !length_insert. fold (vsize (current st)).
    rewrite Hidx.
    assert (Hback : swap_with_back
              (<[k:=y]> (<[(length (current st) - 1)%nat:=x]> (current st)))
              (vsize (current st) - _i - 1) = Ok (current st)).
    { apply swap_with_back_involutive. exact Hsw. }
    by rewrite Hback.
Qed.

Lemma swap_exchanges_witness :
  exists c',
    swap 1 {| current := [VariableSlot 0; VariableSlot 1]; emitted := [] |} =
      (Ok tt, {| current := c'; emitted := [] ++ [SwapCall (to_unsigned 1)] |}) ∧
    length c' = length [VariableSlot 0; VariableSlot 1] ∧
    c' !! (length [VariableSlot 0; VariableSlot 1] - 1 - N.to_nat 1)%nat
      = last [VariableSlot 0; VariableSlot 1] ∧
    last c' = [VariableSlot 0; VariableSlot 1]
                !! (length [VariableSlot 0; VariableSlot 1] - 1 - N.to_nat 1)%nat ∧
    (∀ j, j ≠ (length [VariableSlot 0; VariableSlot 1] - 1 - N.to_nat 1)%nat ->
          j ≠ (length [VariableSlot 0; VariableSlot 1] - 1)%nat ->
          c' !! j = [VariableSlot 0; VariableSlot 1] !! j) ∧
    ∀ trace, swap 1 {| current := c'; emitted := trace |} =
      (Ok tt, {| current := [VariableSlot 0; VariableSlot 1];
                 emitted := trace ++ [SwapCall (to_unsigned 1)] |}).
Proof.
  refine (swap_exchanges {| current := [VariableSlot 0; VariableSlot 1]; emitted := [] |} 1 _ _).
  - vm_compute. reflexivity.
  - vm_compute. reflexivity.
Defined.

(** X3.  [pushOrDupTarget(offset)] with an offset beyond the target throws
    [std::out_of_range] before the hook is called, and the machine is left
    as it was; with an offset in range it calls the hook once with the
    target slot there and appends that slot, and a [pop] after it gives the
    stack back. *)
Theorem pushOrDupTarget_then_pop (ops : ShuffleOperations) (st : Machine) (_offset : N) :
  (targetSize ops <= _offset ->
   pushOrDupTarget ops _offset st = (Err StdOutOfRange, st)) ∧
  (∀ slot, at_ (targetStack ops) _offset = Ok slot ->
     pushOrDupTarget ops _offset st =
       (Ok tt, {| current := current st ++ [slot];
                  emitted := emitted st ++ [PushOrDupCall slot] |}) ∧
     (do _ <- pushOrDupTarget ops _offset; pop) st =
       (Ok tt, {| current := current st;
                  emitted := emitted st ++ [PushOrDupCall slot; PopCall] |})).
Proof.
  split.
  - intros Hge. unfold pushOrDupTarget, bind, lift. by rewrite at_out_of_range.
  - intros slot Hat. unfold pushOrDupTarget, pop, bind, lift, call_hook, get_current,
      set_current. rewrite Hat. cbn. split; [done|].
    by rewrite removelast_last, <- app_assoc.
Qed.

(** ** The queries of a constructed adapter *)

Lemma multiplicity_lookup current target ops x :
  mkShuffleOperations current target = Ok ops ->
  multiplicity ops !! x =
  if decide (x ∈ occurrences current target ∨ x ∈ current)
  then Some (count x (occurrences current target) - count x current)%Z
  else None.
Proof.
  intros Hmk.
  destruct (mkShuffleOperations_Ok current target) as (ops' & Hmk' & _ & _ & Hm & Hdom).
  rewrite Hmk in Hmk'. injection Hmk' as <-.
  assert (Hin : x ∈ dom (multiplicity ops) <-> x ∈ occurrences current target ∨ x ∈ current).
  { rewrite Hdom, elem_of_union, !elem_of_list_to_set. done. }
  destruct (decide (x ∈ occurrences current target ∨ x ∈ current)) as [Hyes|Hno].
  - apply Hin, elem_of_dom in Hyes as [v Hv]. rewrite Hv. f_equal.
    specialize (Hm x). unfold entry_of in Hm. rewrite Hv in Hm. done.
  - apply not_elem_of_dom. by rewrite Hin.
Qed.

Lemma elem_of_occurrences current target x :
  x ∈ occurrences current target <->
  exists p slot, target !! p = Some slot ∧ occurrence current (N.of_nat p, slot) = x.
Proof.
  rewrite list_elem_of_lookup. split.
  - intros [p Hp]. rewrite lookup_occurrences in Hp.
    destruct (target !! p) as [slot|] eqn:Hslot; [|discriminate].
    injection Hp as <-. eauto.
  - intros (p & slot & Hslot & <-). exists p. by rewrite lookup_occurrences, Hslot.
Qed.

Lemma sourceMultiplicity_fact current target ops _offset :
  mkShuffleOperations current target = Ok ops ->
  (vsize current <= _offset -> sourceMultiplicity ops _offset = Err StdOutOfRange) ∧
  (∀ x, at_ current _offset = Ok x ->
        sourceMultiplicity ops _offset =
        Ok (count x (occurrences current target) - count x current)%Z).
Proof.
  intros Hmk. destruct (mkShuffleOperations_fields _ _ _ Hmk) as [Hc Ht].
  unfold sourceMultiplicity, multiplicity_at. rewrite Hc. split.
  - intros Hge. by rewrite at_out_of_range.
  - intros x Hx. rewrite Hx. cbn [bindR].
    rewrite (multiplicity_lookup _ _ _ x Hmk). rewrite decide_True; [done|].
    right. apply at_Ok in Hx. by eapply list_elem_of_lookup_2.
Qed.

(** X4.  On an adapter built by the constructor, [sourceMultiplicity(offset)]
    throws [std::out_of_range] when the offset is beyond the current stack
    and returns otherwise (the slot found there is always a key of the
    table): its value is the number of target positions counting as an
    occurrence of that slot minus the number of its occurrences in the
    current stack. *)
Theorem sourceMultiplicity_constructed (current target : Stack) (ops : ShuffleOperations)
    (_offset : N) :
  mkShuffleOperations current target = Ok ops ->
  (vsize current <= _offset -> sourceMultiplicity ops _offset = Err StdOutOfRange) ∧
  (∀ x, at_ current _offset = Ok x ->
        sourceMultiplicity ops _offset =
        Ok (count x (occurrences current target) - count x current)%Z).
Proof. apply sourceMultiplicity_fact. Qed.

Lemma sourceMultiplicity_constructed_witness :
  (vsize [VariableSlot 0; VariableSlot 0; VariableSlot 1] <= 1 ->
   sourceMultiplicity surplus_example 1 = Err StdOutOfRange) ∧
  (∀ x, at_ [VariableSlot 0; VariableSlot 0; VariableSlot 1] 1 = Ok x ->
        sourceMultiplicity surplus_example 1 =
        Ok (count x (occurrences [VariableSlot 0; VariableSlot 0; VariableSlot 1]
                                 [VariableSlot 0; VariableSlot 1; VariableSlot 1])
            - count x [VariableSlot 0; VariableSlot 0; VariableSlot 1])%Z).
Proof.
  refine (sourceMultiplicity_constructed
            [VariableSlot 0; VariableSlot 0; VariableSlot 1]
            [VariableSlot 0; VariableSlot 1; VariableSlot 1] surplus_example 1 _).
  vm_compute. reflexivity.
Defined.

(** X5.  On an adapter built by the constructor, [targetMultiplicity(offset)]
    throws [std::out_of_range] in two cases.  One is an offset beyond the
    target.  The other is a missing key: the target slot at the offset is
    junk, no junk slot is in the current stack, and every junk position of
    the target lies below the size of the current stack, so that all of them
    were counted for the current slots above them and [JunkSlot] never
    entered the table.  In every other case it returns the count of the
    target slot. *)
Theorem targetMultiplicity_constructed (current target : Stack) (ops : ShuffleOperations)
    (_offset : N) :
  mkShuffleOperations current target = Ok ops ->
  (vsize target <= _offset -> targetMultiplicity ops _offset = Err StdOutOfRange) ∧
  (at_ target _offset = Ok JunkSlot ->
   JunkSlot ∉ current ->
   (∀ p, target !! p = Some JunkSlot -> (p < length current)%nat) ->
   targetMultiplicity ops _offset = Err StdOutOfRange) ∧
  (∀ slot, at_ target _offset = Ok slot ->
     slot ≠ JunkSlot ∨ JunkSlot ∈ current ∨
       (exists p, target !! p = Some JunkSlot ∧ (length current <= p)%nat) ->
     targetMultiplicity ops _offset =
     Ok (count slot (occurrences current target) - count slot current)%Z).
Proof.
  intros Hmk. destruct (mkShuffleOperations_fields _ _ _ Hmk) as [Hc Ht].
  unfold targetMultiplicity, multiplicity_at. rewrite Ht. split; [|split].
  - intros Hge. by rewrite at_out_of_range.
  - intros Hat Hnone Hbelow. rewrite Hat. cbn [bindR].
    rewrite (multiplicity_lookup _ _ _ JunkSlot Hmk). rewrite decide_False; [done|].
    intros [Hocc|Hcur]; [|done].
    apply elem_of_occurrences in Hocc as (p & slot & Hslot & Hocc).
    unfold occurrence in Hocc. cbn [fst snd] in Hocc.
    destruct (holds_JunkSlot slot) eqn:Hjunk.
    + apply holds_JunkSlot_eq in Hjunk as ->. specialize (Hbelow p Hslot).
      replace (N.of_nat p <? vsize current) with true in Hocc
        by (symmetry; apply N.ltb_lt; unfold vsize; lia).
      rewrite Nat2N.id in Hocc. simpl in Hocc.
      destruct (lookup_lt_is_Some_2 current p Hbelow) as [y Hy].
      rewrite Hy in Hocc. simpl in Hocc. subst y.
      apply Hnone. by eapply list_elem_of_lookup_2.
    + simpl in Hocc. subst slot. discriminate.
  - intros slot Hat Hkey. rewrite Hat. cbn [bindR].
    rewrite (multiplicity_lookup _ _ _ slot Hmk). rewrite decide_True; [done|].
    apply at_Ok in Hat.
    destruct Hkey as [Hne|[Hcur|(p & Hp & Hge)]].
    + left. apply elem_of_occurrences. exists (N.to_nat _offset), slot. split; [done|].
      unfold occurrence. cbn [fst snd].
      destruct (holds_JunkSlot slot) eqn:Hjunk; [|done].
      by apply holds_JunkSlot_eq in Hjunk.
    + destruct (decide (slot = JunkSlot)) as [->|Hne]; [by right|].
      left. apply elem_of_occurrences. exists (N.to_nat _offset), slot. split; [done|].
      unfold occurrence. cbn [fst snd].
      destruct (holds_JunkSlot slot) eqn:Hjunk; [|done].
      by apply holds_JunkSlot_eq in Hjunk.
    + destruct (decide (slot = JunkSlot)) as [->|Hne].
      * left. apply elem_of_occurrences. exists p, JunkSlot. split; [done|].
        unfold occurrence. cbn [fst snd].
        replace (N.of_nat p <? vsize current) with false
          by (symmetry; apply N.ltb_ge; unfold vsize; lia).
        done.
      * left. apply elem_of_occurrences. exists (N.to_nat _offset), slot. split; [done|].
        unfold occurrence. cbn [fst snd].
        destruct (holds_JunkSlot slot) eqn:Hjunk; [|done].
        by apply holds_JunkSlot_eq in Hjunk.
Qed.

Lemma targetMultiplicity_constructed_witness :
  targetMultiplicity
    {| currentStack := [VariableSlot 0]; targetStack := [JunkSlot];
       multiplicity := <[VariableSlot 0 := 0%Z]> ∅ |} 0
  = Err StdOutOfRange.
Proof.
  refine (proj1 (proj2 (targetMultiplicity_constructed [VariableSlot 0] [JunkSlot]
            {| currentStack := [VariableSlot 0]; targetStack := [JunkSlot];
               multiplicity := <[VariableSlot 0 := 0%Z]> ∅ |} 0 _)) _ _ _).
  - vm_compute. reflexivity.
  - vm_compute. reflexivity.
  - intros Hin. apply list_elem_of_singleton in Hin. discriminate.
  - intros [|p] Hp; [simpl; lia|]. destruct p; discriminate.
Defined.

(** X6.  [sourceIsSame(lhs, rhs)] throws [std::out_of_range] when one of the
    offsets is beyond the current stack; otherwise it returns whether the
    two slots are identical, and the order of the offsets does not matter. *)
Theorem sourceIsSame_bounds (ops : ShuffleOperations) (_lhs _rhs : N) :
  (sourceSize ops <= _lhs ∨ sourceSize ops <= _rhs ->
   sourceIsSame ops _lhs _rhs = Err StdOutOfRange) ∧
  (∀ x y, at_ (currentStack ops) _lhs = Ok x -> at_ (currentStack ops) _rhs = Ok y ->
     sourceIsSame ops _lhs _rhs = Ok (bool_decide (x = y)) ∧
     sourceIsSame ops _rhs _lhs = sourceIsSame ops _lhs _rhs).
Proof.
  unfold sourceIsSame, sourceSize. split.
  - intros [Hl|Hr].
    + by rewrite at_out_of_range.
    + rewrite (at_out_of_range _ _rhs) by done.
      unfold at_. by destruct (currentStack ops !! N.to_nat _lhs).
  - intros x y Hx Hy. rewrite Hx, Hy. cbn [bindR]. unfold slot_eqb. split; [done|].
    f_equal. apply bool_decide_ext. split; congruence.
Qed.

(** ** The sum of the multiplicity table *)

Lemma total_insert_fresh m i x :
  m !! i = None -> total (<[i:=x]> m) = (x + total m)%Z.
Proof.
  intros Hi. unfold total. apply (map_fold_insert_L (λ _ v acc, (v + acc)%Z)); [|done].
  intros. lia.
Qed.

Lemma total_insert m i x :
  total (<[i:=x]> m) = (x - entry_of m i + total m)%Z.
Proof.
  unfold entry_of. destruct (m !! i) as [v|] eqn:Hv; simpl.
  - rewrite <- (insert_delete_id m i v Hv) at 2.
    rewrite <- (insert_delete_eq m i x).
    rewrite !total_insert_fresh by apply lookup_delete_eq. lia.
  - rewrite total_insert_fresh by done. lia.
Qed.

Lemma total_foldl_decrement current m :
  total (foldl decrement m current) = (total m - Z.of_nat (length current))%Z.
Proof.
  revert m. induction current as [|s current IH]; intros m; simpl; [lia|].
  rewrite IH. unfold decrement. rewrite total_insert. unfold entry_of. lia.
Qed.

Lemma total_countTargets current m entries m' :
  countTargets current m entries = Ok m' ->
  total m' = (total m + Z.of_nat (length entries))%Z.
Proof.
  revert m. induction entries as [|entry entries IH]; intros m; cbn [countTargets].
  - intros [= <-]. simpl. lia.
  - rewrite countTarget_Ok. cbn [bindR]. intros H. rewrite (IH _ H).
    unfold increment. rewrite total_insert. unfold entry_of. simpl. lia.
Qed.

(** X7.  The entries of the table an adapter is built with sum to the size
    of the target minus the size of the current stack: every current slot
    takes one off some entry, and every target position, junk or not, adds
    one to some entry. *)
Theorem multiplicity_total (current target : Stack) (ops : ShuffleOperations) :
  mkShuffleOperations current target = Ok ops ->
  total (multiplicity ops) = (Z.of_nat (length target) - Z.of_nat (length current))%Z.
Proof.
  unfold mkShuffleOperations.
  destruct (countTargets current (foldl decrement ∅ current) (enumerate target))
    as [m|e] eqn:Hm; [|discriminate].
  intros [= <-]. simpl. rewrite (total_countTargets _ _ _ _ Hm).
  rewrite total_foldl_decrement, length_enumerate.
  unfold total. rewrite map_fold_empty. lia.
Qed.

Lemma multiplicity_total_witness :
  total (multiplicity surplus_example) =
  (Z.of_nat (length [VariableSlot 0; VariableSlot 1; VariableSlot 1])
   - Z.of_nat (length [VariableSlot 0; VariableSlot 0; VariableSlot 1]))%Z.
Proof.
  refine (multiplicity_total [VariableSlot 0; VariableSlot 0; VariableSlot 1]
            [VariableSlot 0; VariableSlot 1; VariableSlot 1] surplus_example _).
  vm_compute. reflexivity.
Defined.

(** ** The stop predicate and the tail of [createStackLayout] *)

Lemma allCompatible_agrees ops :
  allCompatible ops = Ok true <-> agrees (currentStack ops) (targetStack ops).
Proof.
  unfold allCompatible. rewrite all_of_true. split.
  - intros Hall i x Hx.
    assert (Hi : N.of_nat i ∈ iota (sourceSize ops)).
    { apply elem_of_iota. apply lookup_lt_Some in Hx. unfold sourceSize, vsize. lia. }
    apply Hall in Hi. rewrite isCompatible_compatible in Hi. injection Hi as Hi.
    apply compatible_true in Hi as (a & b & Ha & Hb & Hab).
    rewrite Nat2N.id in Ha, Hb. exists b. split; [done|]. destruct Hab; [by left|right].
    congruence.
  - intros Hagree i Hi%elem_of_iota. rewrite isCompatible_compatible. f_equal.
    apply compatible_true. destruct (at_in_range _ _ Hi) as [x Hx%at_Ok].
    destruct (Hagree _ _ Hx) as (t & Ht & Hxt). eauto.
Qed.

Lemma agrees_length cur target : agrees cur target -> (length cur <= length target)%nat.
Proof.
  intros Hagree. destruct (decide (length cur = 0)%nat) as [|Hne]; [lia|].
  destruct (lookup_lt_is_Some_2 cur (length cur - 1)) as [x Hx]; [lia|].
  destruct (Hagree _ _ Hx) as (t & Ht%lookup_lt_Some & _). lia.
Qed.

Lemma agrees_cons x cur t target :
  agrees (x :: cur) (t :: target) <-> (t = JunkSlot ∨ x = t) ∧ agrees cur target.
Proof.
  split.
  - intros Hagree. split.
    + destruct (Hagree 0%nat x eq_refl) as (t' & [= <-] & H). done.
    + intros i y Hy. apply (Hagree (S i) y Hy).
  - intros [Hhead Htail] [|i] y Hy; simpl in *.
    + injection Hy as <-. eauto.
    + by apply Htail.
Qed.

(** X8.  A step returns [false] exactly when every position of the current
    stack holds a slot the target accepts there (the target slot is junk or
    identical), however much longer the target is; and then it leaves the
    machine as it was. *)
Theorem shuffleStep_stops_iff (target : Stack) (st : Machine) :
  (agrees (current st) target -> shuffleStep target st = (Ok false, st)) ∧
  (∀ st', shuffleStep target st = (Ok false, st') ->
          st' = st ∧ agrees (current st) target).
Proof.
  split.
  - intros Hagree.
    destruct (mkShuffleOperations_Ok (current st) target) as (ops & Hmk & Hc & Ht & _).
    apply (shuffleStep_stop _ _ ops Hmk). apply allCompatible_agrees. by rewrite Hc, Ht.
  - intros st' Hstep. apply shuffleStep_shape in Hstep.
    inversion Hstep as [ops Hmk Hstop| | |ops offset r st1 Hmk Hstop Hlt Hne Hswap Hr|]; subst.
    + split; [done|]. apply mkShuffleOperations_fields in Hmk as [Hc Ht].
      apply allCompatible_agrees in Hstop. by rewrite Hc, Ht in Hstop.
    + destruct r as [[]|]; discriminate.
Qed.

Lemma shuffle_Ok_agrees target st st' :
  shuffle target st = (Ok tt, st') -> agrees (current st') target.
Proof.
  intros H. apply shuffle_inv in H as (k & stk & _ & _ & Hcases).
  destruct Hcases as [(_ & Habs & _)|[(_ & Hstop & _)|(_ & e & _ & Habs)]];
    [discriminate| |discriminate].
  apply shuffleStep_shape in Hstop.
  inversion Hstop as [ops Hmk Hall| | |ops offset r st1 Hmk Hall Hlt Hne Hswap Hr|]; subst.
  - apply mkShuffleOperations_fields in Hmk as [Hc Ht].
    apply allCompatible_agrees in Hall. by rewrite Hc, Ht in Hall.
  - destruct r as [[]|]; discriminate.
Qed.

(** X9.  What [shuffle] guarantees when it returns (the comment above it,
    lines 95-97): every slot of the source is compatible with the target
    slot at the same offset; the source is then no longer than the target,
    which may have further slots that were not pushed yet. *)
Theorem shuffle_postcondition (target : Stack) (st st' : Machine) :
  shuffle target st = (Ok tt, st') ->
  (length (current st') <= length target)%nat ∧
  ∀ i x, current st' !! i = Some x ->
         exists t, target !! i = Some t ∧ (t = JunkSlot ∨ x = t).
Proof.
  intros H%shuffle_Ok_agrees. split; [by apply agrees_length|exact H].
Qed.

Lemma shuffle_postcondition_witness :
  (length [VariableSlot 1; VariableSlot 0] <= length [VariableSlot 1; VariableSlot 0])%nat ∧
  ∀ i x, [VariableSlot 1; VariableSlot 0] !! i = Some x ->
         exists t, [VariableSlot 1; VariableSlot 0] !! i = Some t ∧ (t = JunkSlot ∨ x = t).
Proof.
  apply (shuffle_postcondition [VariableSlot 1; VariableSlot 0]
           {| current := [VariableSlot 0; VariableSlot 1; VariableSlot 1]; emitted := [] |}
           {| current := [VariableSlot 1; VariableSlot 0]; emitted := [PopCall; SwapCall 1] |}).
  vm_compute. reflexivity.
Defined.

Lemma pushRemaining_prefix target c trace :
  (length c <= length target)%nat ->
  pushRemaining target {| current := c; emitted := trace |} =
  (Ok tt, {| current := c ++ drop (length c) target;
             emitted := trace ++ (PushOrDupCall <$> drop (length c) target) |}).
Proof.
  remember (length target - length c)%nat as gap eqn:Hgap.
  revert c trace Hgap. induction gap as [|gap IH]; intros c trace Hgap Hle;
    rewrite pushRemaining_body; cbn [current emitted].
  - replace (vsize c <? vsize target) with false
      by (symmetry; apply N.ltb_ge; unfold vsize; lia).
    rewrite drop_ge by lia. by rewrite !app_nil_r.
  - replace (vsize c <? vsize target) with true
      by (symmetry; apply N.ltb_lt; unfold vsize; lia).
    destruct (at_in_range target (vsize c)) as [slot Hslot]; [unfold vsize; lia|].
    rewrite Hslot. apply at_Ok in Hslot. unfold vsize in Hslot. rewrite Nat2N.id in Hslot.
    unfold pushed. cbn [current emitted].
    rewrite IH by (rewrite ?length_app; simpl; lia).
    rewrite length_app. simpl. rewrite (drop_S _ _ _ Hslot), Nat.add_1_r.
    rewrite fmap_cons, <- !app_assoc. done.
Qed.

Lemma normalizeJunk_agrees cur target :
  agrees cur target ->
  normalizeJunk (cur ++ drop (length cur) target) target = (Ok tt, target).
Proof.
  revert target. induction cur as [|x cur IH]; intros target Hagree.
  - simpl. rewrite drop_0. apply normalizeJunk_same.
  - destruct target as [|t target].
    + apply agrees_length in Hagree. simpl in Hagree. lia.
    + apply agrees_cons in Hagree as [Hhead Htail]. simpl. rewrite (IH _ Htail).
      destruct (holds_JunkSlot t) eqn:Hjunk.
      * apply holds_JunkSlot_eq in Hjunk. by subst t.
      * destruct Hhead as [-> | ->]; [discriminate|].
        by rewrite (proj2 (slot_eqb_eq t t) eq_refl).
Qed.

Lemma createStackLayout_tail target st st1 :
  shuffle target st = (Ok tt, st1) ->
  createStackLayout target st =
  (Ok tt, {| current := target;
             emitted := emitted st1
                        ++ (PushOrDupCall <$> drop (length (current st1)) target) |}).
Proof.
  intros Hshuffle. pose proof (shuffle_Ok_agrees _ _ _ Hshuffle) as Hagree.
  pose proof (agrees_length _ _ Hagree) as Hlen.
  unfold createStackLayout, bind. rewrite Hshuffle.
  destruct st1 as [c1 trace1]. cbn [current emitted] in *.
  rewrite pushRemaining_prefix by done.
  unfold get_current, yulAssert, lift, assertR, normalize. cbn [current emitted].
  replace (vsize (c1 ++ drop (length c1) target) =? vsize target) with true.
  - by rewrite normalizeJunk_agrees.
  - symmetry. apply N.eqb_eq. unfold vsize. rewrite length_app, length_drop. lia.
Qed.

(** X10.  The tail of [createStackLayout] never throws: once [shuffle] has
    returned, the remaining target slots are pushed in order, one hook call
    each, both assertions hold, and the call returns with the target as the
    current stack.  So [createStackLayout] fails only where [shuffle] does. *)
Theorem createStackLayout_after_shuffle (target : Stack) (st st1 : Machine) :
  shuffle target st = (Ok tt, st1) ->
  createStackLayout target st =
  (Ok tt, {| current := target;
             emitted := emitted st1
                        ++ (PushOrDupCall <$> drop (length (current st1)) target) |}).
Proof. apply createStackLayout_tail. Qed.

Lemma createStackLayout_after_shuffle_witness :
  createStackLayout [VariableSlot 1; VariableSlot 0; LiteralSlot 1]
    {| current := [VariableSlot 0; VariableSlot 1]; emitted := [] |} =
  (Ok tt, {| current := [VariableSlot 1; VariableSlot 0; LiteralSlot 1];
             emitted := [SwapCall 1]
                        ++ (PushOrDupCall
                              <$> drop (length [VariableSlot 1; VariableSlot 0])
                                       [VariableSlot 1; VariableSlot 0; LiteralSlot 1]) |}).
Proof.
  apply (createStackLayout_after_shuffle [VariableSlot 1; VariableSlot 0; LiteralSlot 1]
           {| current := [VariableSlot 0; VariableSlot 1]; emitted := [] |}
           {| current := [VariableSlot 1; VariableSlot 0]; emitted := [SwapCall 1] |}).
  vm_compute. reflexivity.
Defined.

Lemma shuffle_agrees target st :
  agrees (current st) target -> shuffle target st = (Ok tt, st).
Proof.
  intros Hagree. unfold shuffle, bind.
  change 1000%nat with (S 999). cbn [shuffleLoop]. unfold bind.
  destruct (mkShuffleOperations_Ok (current st) target) as (ops & Hmk & Hc & Ht & _).
  rewrite (shuffleStep_stop target st ops Hmk); [done|].
  apply allCompatible_agrees. by rewrite Hc, Ht.
Qed.

(** X11.  On a current stack that the target already accepts position by
    position (in particular when the two are equal), [createStackLayout]
    calls neither the swap nor the pop hook: it pushes the target slots
    above the current stack, in order, and returns with the target as the
    current stack. *)
Theorem createStackLayout_compatible_prefix (target : Stack) (st : Machine) :
  (∀ i x, current st !! i = Some x ->
          exists t, target !! i = Some t ∧ (t = JunkSlot ∨ x = t)) ->
  createStackLayout target st =
  (Ok tt, {| current := target;
             emitted := emitted st
                        ++ (PushOrDupCall <$> drop (length (current st)) target) |}).
Proof.
  intros Hagree. apply createStackLayout_tail. by apply shuffle_agrees.
Qed.

Lemma createStackLayout_compatible_prefix_witness :
  createStackLayout [JunkSlot; VariableSlot 0]
    {| current := [VariableSlot 1]; emitted := [] |} =
  (Ok tt, {| current := [JunkSlot; VariableSlot 0];
             emitted := [] ++ (PushOrDupCall <$> drop (length [VariableSlot 1])
                                                      [JunkSlot; VariableSlot 0]) |}).
Proof.
  apply (createStackLayout_compatible_prefix [JunkSlot; VariableSlot 0]
           {| current := [VariableSlot 1]; emitted := [] |}).
  intros [|i] x Hx; simpl in Hx; [|destruct i; discriminate].
  exists JunkSlot. split; [done|by left].
Defined.

(** ** An empty target *)

Lemma shuffleStep_pop target st ops :
  mkShuffleOperations (current st) target = Ok ops ->
  allCompatible ops = Ok false ->
  surplusTop ops = Ok true ->
  shuffleStep target st = (Ok true, popped st).
Proof.
  intros Hmk Hstop Hsurplus. unfold shuffleStep, bind, lift, get_current, ret.
  by rewrite Hmk, Hstop, Hsurplus.
Qed.

Lemma removelast_take (c : Stack) : removelast c = take (length c - 1) c.
Proof. rewrite removelast_firstn_len. f_equal. lia. Qed.

Lemma shuffleStep_empty_target st :
  vsize (current st) < size_t_modulus ->
  current st ≠ [] ->
  shuffleStep [] st = (Ok true, popped st).
Proof.
  intros Hbound Hne.
  destruct (mkShuffleOperations_Ok (current st) []) as (ops & Hmk & Hc & Ht & _).
  assert (Hpos : 1 <= vsize (current st)).
  { destruct (current st); [done|]. unfold vsize. simpl. lia. }
  apply (shuffleStep_pop _ _ ops Hmk).
  - unfold allCompatible, sourceSize, iota. rewrite Hc.
    destruct (N.to_nat (vsize (current st))) as [|k] eqn:Hk; [lia|].
    simpl. rewrite isCompatible_compatible, compatible_beyond_target; [done|].
    unfold targetSize, vsize. rewrite Ht. simpl. lia.
  - unfold surplusTop, sourceTop, sourceSize, targetSize. rewrite Hc, Ht.
    rewrite usub_no_wrap by done.
    destruct (at_in_range (current st) (vsize (current st) - 1)) as [x Hx]; [lia|].
    destruct (sourceMultiplicity_fact _ _ _ (vsize (current st) - 1) Hmk) as [_ Hval].
    rewrite (Hval x Hx). cbn [bindR andR].
    assert (Hcount : (0 < count x (current st))%Z).
    { apply count_pos_elem_of. apply at_Ok in Hx. by eapply list_elem_of_lookup_2. }
    replace (count x (occurrences (current st) [])) with 0%Z by done.
    replace (0 - count x (current st) <? 0)%Z with true by (symmetry; apply Z.ltb_lt; lia).
    replace (vsize (current st) <=? vsize []) with false
      by (symmetry; apply N.leb_gt; unfold vsize at 1; simpl; lia).
    done.
Qed.

Lemma shuffleLoop_empty_target k b st :
  vsize (current st) < size_t_modulus ->
  shuffleLoop [] k b st =
  (Ok (if (length (current st) <? k)%nat then false
       else match k with O => b | S _ => true end),
   {| current := take (length (current st) - k) (current st);
      emitted := emitted st ++ replicate (length (current st) `min` k)%nat PopCall |}).
Proof.
  revert b st. induction k as [|k IH]; intros b st Hbound; cbn [shuffleLoop].
  - rewrite Nat.sub_0_r, firstn_all, Nat.min_0_r. simpl. rewrite app_nil_r.
    by destruct st.
  - unfold bind. destruct (decide (current st = [])) as [Hnil|Hne].
    + rewrite (shuffleStep_empty [] st Hnil). rewrite Hnil. simpl.
      rewrite app_nil_r. destruct st. simpl in *. by subst.
    + rewrite (shuffleStep_empty_target st Hbound Hne).
      assert (Hlen : (1 <= length (current st))%nat).
      { destruct (current st); [done|]. simpl. lia. }
      rewrite IH by (pose proof (vsize_removelast (current st)); simpl; lia).
      unfold popped. cbn [current emitted].
      rewrite removelast_take, length_take, take_take, <- app_assoc.
      rewrite (Nat.min_l (length (current st) - 1) (length (current st))) by lia.
      f_equal; [f_equal|f_equal].
      * destruct (Nat.ltb_spec (length (current st) - 1) k),
          (Nat.ltb_spec (length (current st)) (S k)); try lia; try done. by destruct k.
      * f_equal. lia.
      * f_equal. replace (length (current st) `min` S k)%nat
          with (S ((length (current st) - 1) `min` k))%nat by lia.
        done.
Qed.

(** X12.  With an empty target (and a current stack of a size that [size_t]
    holds) every step pops the top.  A current stack of fewer than 1000
    slots is emptied, one pop hook call per slot.  With 1000 slots or more,
    the 1000 pops exhaust the iterations of [shuffle] and the call fails
    with "Could not create stack layout after 1000 iterations.", also when
    the stack has just become empty with the last pop. *)
Theorem createStackLayout_empty_target (st : Machine) :
  vsize (current st) < size_t_modulus ->
  ((length (current st) < 1000)%nat ->
   createStackLayout [] st =
   (Ok tt, {| current := [];
              emitted := emitted st ++ replicate (length (current st)) PopCall |})) ∧
  ((1000 <= length (current st))%nat ->
   createStackLayout [] st =
   (Err nonTermination,
    {| current := take (length (current st) - 1000) (current st);
       emitted := emitted st ++ replicate 1000 PopCall |})).
Proof.
  intros Hbound. unfold createStackLayout, shuffle, bind.
  rewrite shuffleLoop_empty_target by done. split; intros Hlen.
  - replace (length (current st) <? 1000)%nat with true
      by (symmetry; apply Nat.ltb_lt; lia).
    unfold yulAssert, lift, assertR. cbn [negb].
    replace (length (current st) - 1000)%nat with 0%nat by lia.
    rewrite take_0, Nat.min_l by lia.
    rewrite pushRemaining_body. cbn. done.
  - replace (length (current st) <? 1000)%nat with false
      by (symmetry; apply Nat.ltb_ge; lia).
    change (match 1000%nat with O => true | S _ => true end) with true.
    unfold yulAssert, lift, assertR. cbn [negb].
    by rewrite Nat.min_r by lia.
Qed.

Lemma createStackLayout_empty_target_witness :
  ((length [VariableSlot 0; VariableSlot 1] < 1000)%nat ->
   createStackLayout [] {| current := [VariableSlot 0; VariableSlot 1]; emitted := [] |} =
   (Ok tt, {| current := [];
              emitted := [] ++ replicate (length [VariableSlot 0; VariableSlot 1]) PopCall |})) ∧
  ((1000 <= length [VariableSlot 0; VariableSlot 1])%nat ->
   createStackLayout [] {| current := [VariableSlot 0; VariableSlot 1]; emitted := [] |} =
   (Err nonTermination,
    {| current := take (length [VariableSlot 0; VariableSlot 1] - 1000)
                       [VariableSlot 0; VariableSlot 1];
       emitted := [] ++ replicate 1000 PopCall |})).
Proof.
  apply (createStackLayout_empty_target
           {| current := [VariableSlot 0; VariableSlot 1]; emitted := [] |}).
  vm_compute. reflexivity.
Defined.

(** ** The hook calls as a program for the stack *)

Lemma replay_app t1 t2 c :
  replay (t1 ++ t2) c =
  match replay t1 c with Some c' => replay t2 c' | None => None end.
Proof.
  revert c. induction t1 as [|p t1 IH]; intros c; simpl; [done|].
  destruct (apply_primitive p c); [apply IH|done].
Qed.

Lemma replay_pushes l c : replay (PushOrDupCall <$> l) c = Some (c ++ l).
Proof.
  revert c. induction l as [|x l IH]; intros c; simpl.
  - by rewrite app_nil_r.
  - by rewrite IH, <- app_assoc.
Qed.

Lemma allCompatible_false_nonempty ops :
  allCompatible ops = Ok false -> currentStack ops ≠ [].
Proof.
  intros H Hnil. unfold allCompatible, sourceSize in H. by rewrite Hnil in H.
Qed.

Lemma swap_depth_index n offset :
  n < size_t_modulus -> offset < n ->
  usub (usub n (usub (usub n offset) 1)) 1 = offset.
Proof.
  intros Hn Hlt.
  rewrite (usub_no_wrap n offset) by (done || lia).
  rewrite (usub_no_wrap (n - offset) 1) by lia.
  rewrite (usub_no_wrap n (n - offset - 1)) by (done || lia).
  rewrite usub_no_wrap by lia. lia.
Qed.

Lemma StepShape_replay target st st' :
  vsize (current st) < 2 ^ 32 ->
  StepShape target st (Ok true) st' ->
  exists p, emitted st' = emitted st ++ [p] ∧
            apply_primitive p (current st) = Some (current st') ∧
            vsize (current st') <= vsize (current st) + 1.
Proof.
  intros Hbound H.
  assert (Hmod : vsize (current st) < size_t_modulus) by (unfold size_t_modulus; lia).
  inversion H as [|e|ops Hmk Hstop Hsurplus
                 |ops offset r0 st1 Hmk Hstop Hlt Hne Hswap Hr
                 |ops o offset slot Hmk Hstop Hsearch Hat]; subst.
  - exists PopCall. split; [done|].
    apply mkShuffleOperations_fields in Hmk as [Hc _].
    apply allCompatible_false_nonempty in Hstop. rewrite Hc in Hstop.
    split; [|simpl; pose proof (vsize_removelast (current st)); lia].
    simpl. by destruct (current st).
  - destruct r0 as [[]|e]; [|discriminate].
    apply mkShuffleOperations_fields in Hmk as [Hc _].
    unfold sourceTop, sourceSize in *. rewrite Hc in *.
    destruct (swap_depth _ _ Hbound Hlt Hne) as [Hpos Hdepth].
    pose proof (swap_emitted _ _ _ _ Hswap) as [Hem Hlen].
    exists (SwapCall (to_unsigned (usub (usub (vsize (current st)) offset) 1))).
    split; [done|]. split; [|unfold vsize; lia].
    rewrite Hdepth. cbn [apply_primitive].
    replace (vsize (current st) - offset - 1 <? vsize (current st)) with true
      by (symmetry; apply N.ltb_lt; lia).
    replace (vsize (current st) - 1 - (vsize (current st) - offset - 1)) with offset by lia.
    revert Hswap. unfold swap, bind, call_hook, get_current, lift, set_current.
    cbn [current emitted]. rewrite swap_depth_index by done.
    destruct (swap_with_back (current st) offset) as [c'|e]; [|discriminate].
    by intros [= <-].
  - exists (PushOrDupCall slot). split; [done|]. split; [done|].
    unfold vsize. simpl. rewrite length_app. simpl. lia.
Qed.

Lemma trueSteps_replay target k st st' :
  vsize (current st) + N.of_nat k < 2 ^ 32 ->
  trueSteps target k st st' ->
  exists trace, emitted st' = emitted st ++ trace ∧ length trace = k ∧
                replay trace (current st) = Some (current st').
Proof.
  intros Hbound Hsteps. revert Hbound.
  induction Hsteps as [st|k st st1 st2 Hstep _ IH]; intros Hbound.
  - exists []. by rewrite app_nil_r.
  - apply shuffleStep_shape, StepShape_replay in Hstep as (p & Hp & Happly & Hsize); [|lia].
    destruct IH as (trace & Htrace & Hlen & Hreplay); [lia|].
    exists (p :: trace). rewrite Htrace, Hp, <- app_assoc. simpl. rewrite Happly. auto.
Qed.

Lemma shuffleStep_false target st st' :
  shuffleStep target st = (Ok false, st') -> st' = st.
Proof.
  intros Hstep. apply shuffleStep_shape in Hstep.
  inversion Hstep as [ops Hmk Hstop| | |ops offset r st1 Hmk Hstop Hlt Hne Hswap Hr|]; subst.
  - done.
  - destruct r as [[]|]; discriminate.
Qed.

Lemma agrees_completed cur target :
  agrees cur target ->
  ∀ i t, target !! i = Some t ->
         t = JunkSlot ∨ (cur ++ drop (length cur) target) !! i = Some t.
Proof.
  intros Hagree i t Ht. destruct (decide (i < length cur)%nat) as [Hlt|Hge].
  - destruct (lookup_lt_is_Some_2 cur i Hlt) as [x Hx].
    destruct (Hagree _ _ Hx) as (t' & Ht' & Hor). rewrite Ht in Ht'. injection Ht' as <-.
    destruct Hor as [Hj | ->]; [by left|right]. by rewrite lookup_app_l.
  - right. rewrite lookup_app_r by lia. rewrite lookup_drop, <- Ht. f_equal. lia.
Qed.

(** X13.  The hook calls are a program for the stack.  When
    [createStackLayout] returns (on a current stack of fewer than
    [2^32 - 1000] slots, so that every swap depth passes through
    [static_cast<unsigned>] unchanged), the calls it made, applied in order
    to a copy of the stack it started on ([swap(depth)] exchanging the top
    with the slot [depth] below it, [pop] removing the top, [pushOrDup(slot)]
    appending [slot]), are all applicable and produce a stack of the length
    of the target that holds the target slot at every position where the
    target is not junk. *)
Theorem hook_calls_replay (target : Stack) (st st' : Machine) :
  vsize (current st) + 1000 < 2 ^ 32 ->
  createStackLayout target st = (Ok tt, st') ->
  exists trace c,
    emitted st' = emitted st ++ trace ∧
    replay trace (current st) = Some c ∧
    length c = length target ∧
    ∀ i t, target !! i = Some t -> t = JunkSlot ∨ c !! i = Some t.
Proof.
  intros Hbound Hrun.
  assert (Hsh : exists st1, shuffle target st = (Ok tt, st1)).
  { unfold createStackLayout, bind in Hrun.
    destruct (shuffle target st) as [[[]|e] st1]; [eauto|discriminate]. }
  destruct Hsh as [st1 Hsh].
  rewrite (createStackLayout_tail _ _ _ Hsh) in Hrun. injection Hrun as <-.
  pose proof (shuffle_Ok_agrees _ _ _ Hsh) as Hagree.
  pose proof (agrees_length _ _ Hagree) as Hlen.
  apply shuffle_inv in Hsh as (k & stk & Hk & Hsteps & Hcases).
  destruct Hcases as [(_ & Habs & _)|[(_ & Hstop & _)|(_ & e & _ & Habs)]];
    [discriminate| |discriminate].
  apply shuffleStep_false in Hstop as ->.
  apply trueSteps_replay in Hsteps as (trace & Htrace & _ & Hreplay); [|lia].
  exists (trace ++ (PushOrDupCall <$> drop (length (current stk)) target)),
         (current stk ++ drop (length (current stk)) target).
  cbn [emitted]. split; [by rewrite Htrace, app_assoc|].
  split; [by rewrite replay_app, Hreplay, replay_pushes|].
  split; [rewrite length_app, length_drop; lia|].
  by apply agrees_completed.
Qed.

Lemma hook_calls_replay_witness :
  exists trace c,
    [PopCall; SwapCall 1] = [] ++ trace ∧
    replay trace [VariableSlot 0; VariableSlot 1; VariableSlot 1] = Some c ∧
    length c = length [VariableSlot 1; VariableSlot 0] ∧
    ∀ i t, [VariableSlot 1; VariableSlot 0] !! i = Some t -> t = JunkSlot ∨ c !! i = Some t.
Proof.
  refine (hook_calls_replay [VariableSlot 1; VariableSlot 0]
            {| current := [VariableSlot 0; VariableSlot 1; VariableSlot 1]; emitted := [] |}
            {| current := [VariableSlot 1; VariableSlot 0]; emitted := [PopCall; SwapCall 1] |}
            _ _).
  - vm_compute. reflexivity.
  - vm_compute. reflexivity.
Defined.

(** ** What the hooks are called with, and how often *)

Lemma pushRemaining_run target st :
  pushRemaining target st =
  (Ok tt, {| current := current st ++ drop (length (current st)) target;
             emitted := emitted st
                        ++ (PushOrDupCall <$> drop (length (current st)) target) |}).
Proof.
  destruct (decide (length (current st) <= length target)%nat) as [Hle|Hgt].
  - destruct st as [c trace]. by apply pushRemaining_prefix.
  - rewrite pushRemaining_body.
    replace (vsize (current st) <? vsize target) with false
      by (symmetry; apply N.ltb_ge; unfold vsize; lia).
    rewrite drop_ge by lia. simpl. rewrite !app_nil_r. by destruct st.
Qed.

Lemma StepShape_pushes target st r st' :
  StepShape target st r st' ->
  exists new, emitted st' = emitted st ++ new ∧ (length new <= 1)%nat ∧
              ∀ slot, PushOrDupCall slot ∈ new -> slot ∈ target.
Proof.
  intros H.
  inversion H as [ops Hmk Hstop|e|ops Hmk Hstop Hsurplus
                 |ops offset r0 st1 Hmk Hstop Hlt Hne Hswap Hr
                 |ops o offset slot Hmk Hstop Hsearch Hat]; subst.
  - exists []. rewrite app_nil_r. split; [done|]. split; [simpl; lia|].
    intros slot Hin. inversion Hin.
  - exists []. rewrite app_nil_r. split; [done|]. split; [simpl; lia|].
    intros slot Hin. inversion Hin.
  - exists [PopCall]. split; [done|]. split; [simpl; lia|].
    intros slot Hin. apply list_elem_of_singleton in Hin. discriminate.
  - apply swap_emitted in Hswap as [Hem _].
    eexists. split; [exact Hem|]. split; [simpl; lia|].
    intros slot Hin. apply list_elem_of_singleton in Hin. discriminate.
  - exists [PushOrDupCall slot]. split; [done|]. split; [simpl; lia|].
    intros slot' Hin. apply list_elem_of_singleton in Hin. injection Hin as ->.
    apply mkShuffleOperations_fields in Hmk as [_ Ht]. rewrite Ht in Hat.
    apply at_Ok in Hat. by eapply list_elem_of_lookup_2.
Qed.

Lemma trueSteps_pushes target k st st' :
  trueSteps target k st st' ->
  exists new, emitted st' = emitted st ++ new ∧ length new = k ∧
              ∀ slot, PushOrDupCall slot ∈ new -> slot ∈ target.
Proof.
  induction 1 as [st|k st st1 st2 Hstep _ (new & Hnew & Hlen & Hin)].
  - exists []. rewrite app_nil_r. split; [done|]. split; [done|].
    intros slot Hslot. inversion Hslot.
  - destruct (shuffleStep_true_emitted _ _ _ Hstep) as [p Hp].
    apply shuffleStep_shape, StepShape_pushes in Hstep as (new1 & Hnew1 & _ & Hin1).
    rewrite Hp in Hnew1. apply app_inv_head in Hnew1 as <-.
    exists (p :: new). rewrite Hnew, Hp, <- app_assoc. split; [done|].
    split; [simpl; by rewrite Hlen|].
    intros slot [Heq|Hslot]%elem_of_cons; [apply Hin1; rewrite Heq; by left|by apply Hin].
Qed.

Lemma shuffle_trace target st r st1 :
  shuffle target st = (r, st1) ->
  exists new, emitted st1 = emitted st ++ new ∧ (length new <= 1000)%nat ∧
              ∀ slot, PushOrDupCall slot ∈ new -> slot ∈ target.
Proof.
  intros H. apply shuffle_inv in H as (k & stk & Hk & Hsteps & Hcases).
  apply trueSteps_pushes in Hsteps as (new & Hnew & Hlen & Hin).
  destruct Hcases as [(_ & _ & ->)|[(Hlt & Hstop & _)|(Hlt & e & Hthrow & _)]].
  - exists new. split; [done|]. split; [lia|done].
  - apply shuffleStep_false in Hstop as ->.
    exists new. split; [done|]. split; [lia|done].
  - apply shuffleStep_shape, StepShape_pushes in Hthrow as (new1 & Hnew1 & Hlen1 & Hin1).
    exists (new ++ new1). rewrite Hnew1, Hnew, app_assoc. split; [done|].
    split; [rewrite length_app; lia|].
    intros slot [Hslot|Hslot]%elem_of_app; auto.
Qed.

Lemma createStackLayout_trace target st r st' :
  createStackLayout target st = (r, st') ->
  exists new, emitted st' = emitted st ++ new ∧
              (length new <= 1000 + length target)%nat ∧
              ∀ slot, PushOrDupCall slot ∈ new -> slot ∈ target.
Proof.
  unfold createStackLayout, bind.
  destruct (shuffle target st) as [r1 st1] eqn:Hsh.
  apply shuffle_trace in Hsh as (new1 & Hnew1 & Hlen1 & Hin1).
  destruct r1 as [[]|e]; [|intros [= <- <-]; exists new1; split; [done|]; split; [lia|done]].
  rewrite pushRemaining_run.
  unfold get_current, yulAssert, lift, assertR, normalize. cbn [current emitted].
  assert (Hthere : ∀ r0 c,
            (r0 : Res unit,
             {| current := c;
                emitted := emitted st1
                           ++ (PushOrDupCall <$> drop (length (current st1)) target) |})
            = (r, st') ->
            exists new, emitted st' = emitted st ++ new ∧
                        (length new <= 1000 + length target)%nat ∧
                        ∀ slot, PushOrDupCall slot ∈ new -> slot ∈ target).
  { intros r0 c [= <- <-]. cbn [emitted].
    exists (new1 ++ (PushOrDupCall <$> drop (length (current st1)) target)).
    rewrite Hnew1, app_assoc. split; [done|].
    split; [rewrite length_app, length_fmap, length_drop; lia|].
    intros slot [Hslot|Hslot]%elem_of_app; [auto|].
    apply list_elem_of_fmap in Hslot as (y & [= <-] & Hy).
    rewrite <- (take_drop (length (current st1)) target). apply elem_of_app. by right. }
  destruct (vsize _ =? vsize target); [|apply Hthere].
  destruct (normalizeJunk _ target) as [r3 c3]. apply Hthere.
Qed.

(** X14.  Whatever [createStackLayout] does, returning or throwing, the
    push-or-dup hook is only ever called with slots that occur in the
    target. *)
Theorem pushed_slots_from_target (target : Stack) (st st' : Machine) (r : Res unit) :
  createStackLayout target st = (r, st') ->
  exists new, emitted st' = emitted st ++ new ∧
              ∀ slot, PushOrDupCall slot ∈ new -> slot ∈ target.
Proof.
  intros (new & Hnew & _ & Hin)%createStackLayout_trace. eauto.
Qed.

Lemma pushed_slots_from_target_witness :
  exists new, [PushOrDupCall (VariableSlot 0)] = [] ++ new ∧
              ∀ slot, PushOrDupCall slot ∈ new -> slot ∈ [JunkSlot; VariableSlot 0].
Proof.
  apply (pushed_slots_from_target [JunkSlot; VariableSlot 0]
           {| current := [VariableSlot 0]; emitted := [] |}
           {| current := [JunkSlot; VariableSlot 0];
              emitted := [PushOrDupCall (VariableSlot 0)] |} (Ok tt)).
  vm_compute. reflexivity.
Defined.

(** X15.  Whatever [createStackLayout] does, returning or throwing, it makes
    at most [1000 + |target|] hook calls: at most one per iteration of
    [shuffle], and at most one per target position in the loop after it. *)
Theorem hook_calls_bounded (target : Stack) (st st' : Machine) (r : Res unit) :
  createStackLayout target st = (r, st') ->
  exists new, emitted st' = emitted st ++ new ∧
              (length new <= 1000 + length target)%nat.
Proof.
  intros (new & Hnew & Hlen & _)%createStackLayout_trace. eauto.
Qed.

Lemma hook_calls_bounded_witness :
  exists new, [SwapCall 2; PopCall; PopCall] = [] ++ new ∧
              (length new <= 1000 + length [VariableSlot 2])%nat.
Proof.
  apply (hook_calls_bounded [VariableSlot 2]
           {| current := [VariableSlot 0; VariableSlot 1; VariableSlot 2]; emitted := [] |}
           {| current := [VariableSlot 2]; emitted := [SwapCall 2; PopCall; PopCall] |}
           (Ok tt)).
  vm_compute. reflexivity.
Defined.

(** ** Steps follow the multiplicities *)

Lemma bringUpSearch_positive ops toVisit visited offset :
  bringUpSearch ops toVisit visited = Ok offset ->
  exists m, targetMultiplicity ops offset = Ok m ∧ (0 < m)%Z.
Proof.
  funelim (bringUpSearch ops toVisit visited); intros Hres; try discriminate.
  - injection Hres as <-.
    match goal with
    | Hm : targetMultiplicity _ _ = Ok ?m, Hp : (0 <? ?m)%Z = true |- _ =>
        exists m; split; [exact Hm|by apply Z.ltb_lt]
    end.
  - match goal with IH : context [bringUpSearch _ _ _ = Ok _ -> _] |- _ => by apply IH end.
Qed.

(** X16.  A step that calls the push-or-dup hook passes a slot of the target
    of which the current stack holds fewer copies than there are target
    positions counting as its occurrences (its multiplicity is positive),
    and appends that slot: a step never duplicates a slot the stack already
    has enough copies of. *)
Theorem step_pushes_wanted (target : Stack) (st st' : Machine) (slot : StackSlot) :
  shuffleStep target st = (Ok true, st') ->
  emitted st' = emitted st ++ [PushOrDupCall slot] ->
  current st' = current st ++ [slot] ∧
  slot ∈ target ∧
  (count slot (current st) < count slot (occurrences (current st) target))%Z.
Proof.
  intros Hstep Hem. apply shuffleStep_shape in Hstep.
  inversion Hstep as [| |ops Hmk Hstop Hsurplus
                     |ops offset r0 st1 Hmk Hstop Hlt Hne Hswap Hr
                     |ops o offset slot0 Hmk Harg Hsearch Hat]; subst.
  - simpl in Hem. apply app_inv_head in Hem. discriminate.
  - apply swap_emitted in Hswap as [Hem' _]. rewrite Hem' in Hem.
    apply app_inv_head in Hem. discriminate.
  - simpl in Hem. apply app_inv_head in Hem. injection Hem as ->.
    split; [done|].
    destruct (mkShuffleOperations_fields _ _ _ Hmk) as [_ Ht].
    apply bringUpSearch_positive in Hsearch as (m & Hm & Hpos).
    unfold targetMultiplicity in Hm. rewrite Hat in Hm. cbn [bindR] in Hm.
    unfold multiplicity_at in Hm. rewrite (multiplicity_lookup _ _ _ slot Hmk) in Hm.
    rewrite Ht in Hat. apply at_Ok in Hat.
    split; [by eapply list_elem_of_lookup_2|].
    destruct (decide _); [|discriminate]. injection Hm as <-. lia.
Qed.

Lemma step_pushes_wanted_witness :
  [VariableSlot 0; VariableSlot 0; VariableSlot 1; VariableSlot 1]
  = [VariableSlot 0; VariableSlot 0; VariableSlot 1] ++ [VariableSlot 1] ∧
  VariableSlot 1 ∈ [VariableSlot 0; VariableSlot 1; VariableSlot 1] ∧
  (count (VariableSlot 1) [VariableSlot 0; VariableSlot 0; VariableSlot 1]
   < count (VariableSlot 1)
       (occurrences [VariableSlot 0; VariableSlot 0; VariableSlot 1]
                    [VariableSlot 0; VariableSlot 1; VariableSlot 1]))%Z.
Proof.
  refine (step_pushes_wanted [VariableSlot 0; VariableSlot 1; VariableSlot 1]
            {| current := [VariableSlot 0; VariableSlot 0; VariableSlot 1]; emitted := [] |}
            {| current := [VariableSlot 0; VariableSlot 0; VariableSlot 1; VariableSlot 1];
               emitted := [PushOrDupCall (VariableSlot 1)] |}
            (VariableSlot 1) _ _).
  - vm_compute. reflexivity.
  - reflexivity.
Defined.

(** X17.  A step that calls the pop hook (on a current stack of a size that
    [size_t] holds) removes the top slot, and the current stack held more
    copies of that slot than there are target positions counting as its
    occurrences (its multiplicity is negative): a step never pops a slot of
    which the target wants every copy. *)
Theorem step_pops_surplus (target : Stack) (st st' : Machine) :
  vsize (current st) < size_t_modulus ->
  shuffleStep target st = (Ok true, st') ->
  emitted st' = emitted st ++ [PopCall] ->
  exists x, current st = current st' ++ [x] ∧
            (count x (occurrences (current st) target) < count x (current st))%Z.
Proof.
  intros Hbound Hstep Hem. apply shuffleStep_shape in Hstep.
  inversion Hstep as [| |ops Hmk Hstop Hsurplus
                     |ops offset r0 st1 Hmk Hstop Hlt Hne Hswap Hr
                     |ops o offset slot0 Hmk Harg Hsearch Hat]; subst.
  - destruct (mkShuffleOperations_fields _ _ _ Hmk) as [Hc _].
    apply allCompatible_false_nonempty in Hstop. rewrite Hc in Hstop.
    destruct (exists_last Hstop) as (c & x & Hcx).
    exists x. simpl. rewrite Hcx, removelast_last. split; [done|].
    apply andR_true in Hsurplus as [Hneg _].
    unfold sourceTop, sourceSize in Hneg. rewrite Hc in Hneg.
    assert (Hpos : 1 <= vsize (current st)).
    { rewrite Hcx. unfold vsize. rewrite length_app. simpl. lia. }
    rewrite usub_no_wrap in Hneg by done.
    assert (Hx : at_ (current st) (vsize (current st) - 1) = Ok x).
    { apply at_Ok. rewrite Hcx. unfold vsize. rewrite length_app. simpl.
      replace (N.to_nat (N.of_nat (length c + 1) - 1)) with (length c + 0)%nat by lia.
      by rewrite lookup_app_r, Nat.add_0_r, Nat.sub_diag by lia. }
    destruct (sourceMultiplicity_fact _ _ _ (vsize (current st) - 1) Hmk) as [_ Hval].
    rewrite (Hval x Hx) in Hneg. cbn [bindR] in Hneg. injection Hneg as Hneg.
    apply Z.ltb_lt in Hneg. rewrite <- Hcx. lia.
  - apply swap_emitted in Hswap as [Hem' _]. rewrite Hem' in Hem.
    apply app_inv_head in Hem. discriminate.
  - simpl in Hem. apply app_inv_head in Hem. discriminate.
Qed.

Lemma step_pops_surplus_witness :
  exists x, [VariableSlot 0; VariableSlot 1] = [VariableSlot 0] ++ [x] ∧
            (count x (occurrences [VariableSlot 0; VariableSlot 1] [VariableSlot 0])
             < count x [VariableSlot 0; VariableSlot 1])%Z.
Proof.
  refine (step_pops_surplus [VariableSlot 0]
            {| current := [VariableSlot 0; VariableSlot 1]; emitted := [] |}
            {| current := [VariableSlot 0]; emitted := [PopCall] |} _ _ _).
  - vm_compute. reflexivity.
  - vm_compute. reflexivity.
  - reflexivity.
Defined.

(** ** A current stack with surplus slots on top of an accepted prefix *)

Lemma allCompatible_value ops : exists b, allCompatible ops = Ok b.
Proof.
  unfold allCompatible. induction (iota (sourceSize ops)) as [|i l [b IH]]; simpl; [eauto|].
  rewrite isCompatible_compatible. simpl. destruct (compatible ops i i); eauto.
Qed.

Lemma occurrences_agreed cur target :
  (∀ i t, target !! i = Some t -> t = JunkSlot ∨ cur !! i = Some t) ->
  (length target <= length cur)%nat ->
  occurrences cur target = take (length target) cur.
Proof.
  intros Hagree Hlen. apply list_eq. intros p. rewrite lookup_occurrences.
  destruct (target !! p) as [t|] eqn:Ht; simpl.
  - pose proof (lookup_lt_Some _ _ _ Ht) as Hp. rewrite lookup_take_lt by done.
    destruct (lookup_lt_is_Some_2 cur p) as [x Hx]; [lia|]. rewrite Hx. f_equal.
    unfold occurrence. cbn [fst snd].
    destruct (holds_JunkSlot t) eqn:Hjunk.
    + replace (N.of_nat p <? vsize cur) with true
        by (symmetry; apply N.ltb_lt; unfold vsize; lia).
      simpl. by rewrite Nat2N.id, Hx.
    + simpl. destruct (Hagree _ _ Ht) as [->|Hcur]; [discriminate|congruence].
  - apply lookup_ge_None in Ht. symmetry. apply lookup_ge_None. rewrite length_take. lia.
Qed.

Lemma shuffleStep_surplus target st :
  vsize (current st) < size_t_modulus ->
  (length target < length (current st))%nat ->
  (∀ i t, target !! i = Some t -> t = JunkSlot ∨ current st !! i = Some t) ->
  shuffleStep target st = (Ok true, popped st).
Proof.
  intros Hbound Hlen Hagree.
  destruct (mkShuffleOperations_Ok (current st) target) as (ops & Hmk & Hc & Ht & _).
  apply (shuffleStep_pop _ _ ops Hmk).
  - destruct (allCompatible_value ops) as [[] Hb]; [|done].
    apply allCompatible_agrees, agrees_length in Hb. rewrite Hc, Ht in Hb. lia.
  - unfold surplusTop, sourceTop, sourceSize, targetSize. rewrite Hc, Ht.
    assert (Hpos : 1 <= vsize (current st)) by (unfold vsize; lia).
    rewrite usub_no_wrap by done.
    destruct (at_in_range (current st) (vsize (current st) - 1)) as [x Hx]; [lia|].
    destruct (sourceMultiplicity_fact _ _ _ (vsize (current st) - 1) Hmk) as [_ Hval].
    rewrite (Hval x Hx). cbn [bindR andR].
    rewrite occurrences_agreed by (done || lia).
    assert (Hin : x ∈ drop (length target) (current st)).
    { apply at_Ok in Hx. apply list_elem_of_lookup.
      exists (N.to_nat (vsize (current st) - 1) - length target)%nat.
      rewrite lookup_drop, <- Hx. f_equal. unfold vsize. lia. }
    apply count_pos_elem_of in Hin.
    pose proof (count_take_drop x (length target) (current st)) as Hsplit.
    replace (count x (take (length target) (current st)) - count x (current st) <? 0)%Z
      with true by (symmetry; apply Z.ltb_lt; lia).
    replace (vsize (current st) <=? vsize target) with false
      by (symmetry; apply N.leb_gt; unfold vsize; lia).
    done.
Qed.

Lemma shuffleLoop_surplus target j :
  ∀ n b st,
    vsize (current st) < size_t_modulus ->
    length (current st) = (length target + j)%nat ->
    (j < n)%nat ->
    (∀ i t, target !! i = Some t -> t = JunkSlot ∨ current st !! i = Some t) ->
    shuffleLoop target n b st =
    (Ok false, {| current := take (length target) (current st);
                  emitted := emitted st ++ replicate j PopCall |}).
Proof.
  induction j as [|j IH]; intros n b st Hbound Hlen Hn Hagree;
    (destruct n as [|n]; [lia|]); cbn [shuffleLoop]; unfold bind.
  - assert (Hag : agrees (current st) target).
    { intros i x Hx.
      destruct (lookup_lt_is_Some_2 target i) as [t Ht]; [apply lookup_lt_Some in Hx; lia|].
      exists t. split; [done|]. destruct (Hagree _ _ Ht) as [|Hc]; [by left|right; congruence]. }
    destruct (mkShuffleOperations_Ok (current st) target) as (ops & Hmk & Hc & Ht & _).
    rewrite (shuffleStep_stop target st ops Hmk) by (apply allCompatible_agrees; by rewrite Hc, Ht).
    rewrite take_ge by lia. simpl. rewrite app_nil_r. by destruct st.
  - rewrite shuffleStep_surplus by (done || lia).
    rewrite IH.
    + unfold popped. cbn [current emitted].
      rewrite removelast_take, take_take, <- app_assoc.
      f_equal. f_equal. f_equal. lia.
    + simpl. pose proof (vsize_removelast (current st)). lia.
    + simpl. rewrite removelast_take, length_take. lia.
    + lia.
    + intros i t Hti. simpl. destruct (Hagree _ _ Hti) as [|Hc]; [by left|right].
      rewrite removelast_take, lookup_take_lt; [done|apply lookup_lt_Some in Hti; lia].
Qed.

(** X18.  On a current stack (of a size that [size_t] holds) whose lower
    part the target accepts position by position and which has fewer than
    1000 further slots on top, [createStackLayout] calls the pop hook once
    per surplus slot and nothing else, and returns with the target as the
    current stack. *)
Theorem createStackLayout_drops_surplus (target : Stack) (st : Machine) (j : nat) :
  vsize (current st) < size_t_modulus ->
  length (current st) = (length target + j)%nat ->
  (j < 1000)%nat ->
  (∀ i t, target !! i = Some t -> t = JunkSlot ∨ current st !! i = Some t) ->
  createStackLayout target st =
  (Ok tt, {| current := target; emitted := emitted st ++ replicate j PopCall |}).
Proof.
  intros Hbound Hlen Hj Hagree.
  rewrite (createStackLayout_tail target st
             {| current := take (length target) (current st);
                emitted := emitted st ++ replicate j PopCall |}).
  - cbn [current emitted]. rewrite length_take, Nat.min_l by lia.
    rewrite drop_all. simpl. by rewrite app_nil_r.
  - unfold shuffle, bind. by rewrite (shuffleLoop_surplus target j) by (done || lia).
Qed.

Lemma createStackLayout_drops_surplus_witness :
  createStackLayout [JunkSlot; VariableSlot 0]
    {| current := [VariableSlot 1; VariableSlot 0; VariableSlot 0; VariableSlot 2];
       emitted := [] |} =
  (Ok tt, {| current := [JunkSlot; VariableSlot 0];
             emitted := [] ++ replicate 2 PopCall |}).
Proof.
  refine (createStackLayout_drops_surplus [JunkSlot; VariableSlot 0]
            {| current := [VariableSlot 1; VariableSlot 0; VariableSlot 0; VariableSlot 2];
               emitted := [] |} 2 _ _ _ _).
  - vm_compute. reflexivity.
  - reflexivity.
  - lia.
  - intros [|[|i]] t Ht; simpl in Ht; [|right|destruct i; discriminate].
    + injection Ht as <-. by left.
    + exact Ht.
Defined.

(** ** When the transformer throws *)

Lemma swap_in_range st offset :
  vsize (current st) < size_t_modulus -> offset < vsize (current st) ->
  exists st', swap (usub (usub (vsize (current st)) offset) 1) st = (Ok tt, st').
Proof.
  intros Hbound Hlt. unfold swap, bind, call_hook, get_current, lift, set_current.
  cbn [current emitted]. rewrite swap_depth_index by done.
  destruct (swap_with_back_Ok (current st) offset Hlt) as (x & y & _ & _ & ->). eauto.
Qed.

Lemma shuffleStep_throws target st e st' :
  vsize (current st) < size_t_modulus ->
  shuffleStep target st = (Err e, st') -> st' = st.
Proof.
  intros Hbound Hstep. apply shuffleStep_shape in Hstep.
  inversion Hstep as [|e0| |ops offset r0 st1 Hmk Hstop Hlt Hne Hswap Hr|]; subst; [done|].
  apply mkShuffleOperations_fields in Hmk as [Hc _].
  unfold sourceSize in *. rewrite Hc in *.
  destruct (swap_in_range st offset Hbound Hlt) as [st2 Hok].
  rewrite Hok in Hswap. injection Hswap as <- <-. discriminate.
Qed.

Lemma trueSteps_size target k st st' :
  vsize (current st) + N.of_nat k < 2 ^ 32 ->
  trueSteps target k st st' ->
  vsize (current st') <= vsize (current st) + N.of_nat k.
Proof.
  intros Hbound Hsteps. revert Hbound.
  induction Hsteps as [st|k st st1 st2 Hstep _ IH]; intros Hbound; [lia|].
  apply shuffleStep_shape, StepShape_replay in Hstep as (p & _ & _ & Hgrow); [|lia].
  assert (Hnext : vsize (current st1) + N.of_nat k < 2 ^ 32) by lia.
  apply IH in Hnext. lia.
Qed.

(** X19.  When [createStackLayout] throws (on a current stack of fewer than
    [2^32 - 1000] slots), the current stack it leaves is the one the hook
    calls made so far lead to: applied in order to a copy of the stack it
    started on, they are all applicable and produce the current stack.  No
    hook was called without the stack being changed accordingly, and the
    stack was not changed without a hook call. *)
Theorem failure_leaves_consistent_stack (target : Stack) (st st' : Machine) (e : Error) :
  vsize (current st) + 1000 < 2 ^ 32 ->
  createStackLayout target st = (Err e, st') ->
  exists trace, emitted st' = emitted st ++ trace ∧
                replay trace (current st) = Some (current st').
Proof.
  intros Hbound Hrun.
  assert (Hsh : shuffle target st = (Err e, st')).
  { destruct (shuffle target st) as [[[]|e1] st1] eqn:Hsh.
    - by rewrite (createStackLayout_tail _ _ _ Hsh) in Hrun.
    - unfold createStackLayout, bind in Hrun. rewrite Hsh in Hrun. exact Hrun. }
  apply shuffle_inv in Hsh as (k & stk & Hk & Hsteps & Hcases).
  assert (Hfuel : vsize (current st) + N.of_nat k < 2 ^ 32) by lia.
  destruct (trueSteps_replay _ _ _ _ Hfuel Hsteps) as (trace & Htrace & Hlen & Hreplay).
  assert (Hsize : vsize (current stk) < size_t_modulus).
  { pose proof (trueSteps_size _ _ _ _ Hfuel Hsteps). unfold size_t_modulus. lia. }
  destruct Hcases as [(_ & _ & ->)|[(_ & _ & Habs)|(_ & e1 & Hthrow & _)]];
    [eauto|discriminate|].
  apply shuffleStep_throws in Hthrow as ->; [eauto|done].
Qed.

Lemma failure_leaves_consistent_stack_witness :
  exists trace, replicate 1000 PopCall = [] ++ trace ∧
                replay trace (replicate 1000 (VariableSlot 0)) = Some [].
Proof.
  refine (failure_leaves_consistent_stack []
            {| current := replicate 1000 (VariableSlot 0); emitted := [] |}
            {| current := []; emitted := replicate 1000 PopCall |} nonTermination _ _).
  - vm_compute. reflexivity.
  - vm_compute. reflexivity.
Defined.
